(** * SparseSetAbstractDomain: the sparse-set value of the powerset domain

    A shallow embedding of [ssad_impl::SparseSetValue<IntegerType>]
    (Briggs & Torczon sparse sets) and the verification of its contract:
    membership, insertion, swap-removal, the lattice combinators
    [join_with] / [meet_with] / [widen_with] / [narrow_with], the ordering
    [leq] / [equals], the representation invariant and memory safety. *)

From Stdlib Require Import NArith Lia.
From stdpp Require Import base numbers option list strings pretty.

Local Open Scope N_scope.

(** ** Outcomes of running a member function

    [std::vector::operator[]] is unchecked: an index outside the vector is
    undefined behaviour.  Every access of the embedding is checked instead
    and reports [Fault] there, so that memory safety becomes the statement
    that [Fault] is never returned.  [Diverge] is the answer of a loop whose
    iteration budget ran out. *)

Inductive outcome (A : Type) : Type :=
  | Ret (a : A)
  | Fault
  | Diverge.

Arguments Ret {A} a.
Arguments Fault {A}.
Arguments Diverge {A}.

Definition bind {A B : Type} (c : outcome A) (k : A → outcome B) : outcome B :=
  match c with
  | Ret a => k a
  | Fault => Fault
  | Diverge => Diverge
  end.

Notation "'let*' x ':=' c 'in' k" := (bind c (fun x => k))
  (at level 10, x name, c at level 100, k at level 200).

(** Monadic left fold: the body of a range-based [for] applied to each
    element of a sequence in order. *)
Fixpoint foldM {S A : Type} (f : S → A → outcome S) (s : S) (l : list A)
  : outcome S :=
  match l with
  | [] => Ret s
  | a :: l' => let* s' := f s a in foldM f s' l'
  end.

(** ** Machine integers and vectors

    [size_t] is a 64-bit unsigned integer; [IntegerType] is an unsigned type
    that is not wider ([static_assert] in the destructor of the domain), so
    its values are carried by [N] as well and no conversion in the class
    narrows a value.  The two arithmetic operations of the class, [n + 1] and
    [n - 1] on [size_t], wrap around. *)

Definition size_modulus : N := 2 ^ 64.

Definition size_succ (n : N) : N := (n + 1) mod size_modulus.

Definition size_pred (n : N) : N := (n + size_modulus - 1) mod size_modulus.

(** [v[i]] as an rvalue. *)
Definition vget {A : Type} (v : list A) (i : N) : outcome A :=
  match v !! N.to_nat i with
  | Some x => Ret x
  | None => Fault
  end.

(** [v[i] = x]. *)
Definition vset {A : Type} (v : list A) (i : N) (x : A) : outcome (list A) :=
  if decide (N.to_nat i < length v)%nat
  then Ret (<[N.to_nat i := x]> v)
  else Fault.

(** Modelled from the spec: the enumeration [AbstractValueKind] is declared in
    a header that is not part of the sources at hand; the spec lists its
    three members Bottom, Top and Value. *)
Inductive AbstractValueKind : Type :=
  | Bottom
  | Value
  | Top.

(** ** The class [SparseSetValue] *)

Record SparseSetValue : Type := mkSparseSetValue {
  m_capacity : N;
  m_element_num : N;
  m_dense : list N;
  m_sparse : list N;
}.

(** [SparseSetValue()] *)
Definition default_value : SparseSetValue :=
  {| m_capacity := 0; m_element_num := 0; m_dense := []; m_sparse := [] |}.

(** [SparseSetValue(size_t max_size)]: both vectors are value-initialised. *)
Definition make (max_size : N) : SparseSetValue :=
  {| m_capacity := max_size;
     m_element_num := 0;
     m_dense := replicate (N.to_nat max_size) 0;
     m_sparse := replicate (N.to_nat max_size) 0 |}.

Definition clear (s : SparseSetValue) : SparseSetValue :=
  {| m_capacity := m_capacity s;
     m_element_num := 0;
     m_dense := m_dense s;
     m_sparse := m_sparse s |}.

Definition size (s : SparseSetValue) : N := m_element_num s.

Definition kind (s : SparseSetValue) : AbstractValueKind := Value.

(** [end()], as a position in [m_dense]: [std::next] past the end of the
    vector is a fault. *)
Definition end_pos (s : SparseSetValue) : outcome N :=
  if decide (N.to_nat (m_element_num s) ≤ length (m_dense s))%nat
  then Ret (m_element_num s)
  else Fault.

(** The range [begin(), end())]: the entries of [m_dense] before [end()]. *)
Definition range (s : SparseSetValue) : outcome (list N) :=
  let* e := end_pos s in
  Ret (take (N.to_nat e) (m_dense s)).

Definition elements (s : SparseSetValue) : outcome (list N) := range s.

Definition contains (s : SparseSetValue) (element : N) : outcome bool :=
  if m_capacity s <=? element then Ret false
  else
    let* dense_idx := vget (m_sparse s) element in
    if dense_idx <? m_element_num s
    then let* x := vget (m_dense s) dense_idx in Ret (x =? element)
    else Ret false.

(** The [for] loop of [leq], entered at index [i] with [k] iterations left
    ([i] stays below [m_element_num], so [++i] does not wrap). *)
Fixpoint leq_loop (k : nat) (s other : SparseSetValue) (i : N) : outcome bool :=
  match k with
  | O => Ret true
  | S k' =>
      let* x := vget (m_dense s) i in
      let* c := contains other x in
      if c then leq_loop k' s other (i + 1) else Ret false
  end.

Definition leq (s other : SparseSetValue) : outcome bool :=
  if m_element_num other <? m_element_num s then Ret false
  else leq_loop (N.to_nat (m_element_num s)) s other 0.

Definition equals (s other : SparseSetValue) : outcome bool :=
  if m_element_num s =? m_element_num other then leq s other else Ret false.

Definition add (s : SparseSetValue) (element : N) : outcome SparseSetValue :=
  if element <? m_capacity s then
    let* dense_idx := vget (m_sparse s) element in
    let n := m_element_num s in
    let* absent :=
      (if m_element_num s <=? dense_idx then Ret true
       else let* x := vget (m_dense s) dense_idx in Ret (negb (x =? element))) in
    if absent : bool then
      let* sparse' := vset (m_sparse s) element n in
      let* dense' := vset (m_dense s) n element in
      Ret {| m_capacity := m_capacity s;
             m_element_num := size_succ n;
             m_dense := dense';
             m_sparse := sparse' |}
    else Ret s
  else Ret s.

(** [remove] receives its argument by reference, and [meet_with] passes a
    reference into [m_dense]; the argument is read for the last time before
    the first store, so passing it by value gives the same run. *)
Definition remove (s : SparseSetValue) (element : N) : outcome SparseSetValue :=
  if element <? m_capacity s then
    let* dense_idx := vget (m_sparse s) element in
    let n := m_element_num s in
    let* present :=
      (if dense_idx <? n
       then let* x := vget (m_dense s) dense_idx in Ret (x =? element)
       else Ret false) in
    if present : bool then
      let* last_element := vget (m_dense s) (size_pred n) in
      let* dense' := vset (m_dense s) dense_idx last_element in
      let* sparse' := vset (m_sparse s) last_element dense_idx in
      Ret {| m_capacity := m_capacity s;
             m_element_num := size_pred n;
             m_dense := dense';
             m_sparse := sparse' |}
    else Ret s
  else Ret s.

(** The growth step of [join_with]: [resize] keeps the old entries and
    appends value-initialised ones. *)
Definition grow (s other : SparseSetValue) : SparseSetValue :=
  if m_capacity s <? m_capacity other then
    {| m_capacity := m_capacity other;
       m_element_num := m_element_num s;
       m_dense := resize (N.to_nat (m_capacity other)) 0 (m_dense s);
       m_sparse := resize (N.to_nat (m_capacity other)) 0 (m_sparse s) |}
  else s.

Definition join_with (s other : SparseSetValue)
  : outcome (SparseSetValue * AbstractValueKind) :=
  let s1 := grow s other in
  let* es := range other in
  let* s2 := foldM add s1 es in
  Ret (s2, Value).

Definition widen_with (s other : SparseSetValue)
  : outcome (SparseSetValue * AbstractValueKind) :=
  join_with s other.

(** The loop of [meet_with] with the iterator at position [i].  A step either
    removes [*it] or advances [it]; [fuel] bounds the number of steps. *)
Fixpoint meet_loop (fuel : nat) (s other : SparseSetValue) (i : N)
  : outcome SparseSetValue :=
  match fuel with
  | O => Diverge
  | S fuel' =>
      let* e := end_pos s in
      if i =? e then Ret s
      else
        let* x := vget (m_dense s) i in
        let* c := contains other x in
        if c then meet_loop fuel' s other (i + 1)
        else let* s' := remove s x in meet_loop fuel' s' other i
  end.

(** The iterator never passes [end()].  A step is the last one, or shrinks
    [m_element_num - i] by one, or is a [remove] that stores nothing and
    leaves the loop where it was for good; so a run that ends takes at most
    [m_element_num + 1] steps. *)
Definition meet_with (s other : SparseSetValue)
  : outcome (SparseSetValue * AbstractValueKind) :=
  let* s' := meet_loop (S (N.to_nat (m_element_num s))) s other 0 in
  Ret (s', Value).

Definition narrow_with (s other : SparseSetValue)
  : outcome (SparseSetValue * AbstractValueKind) :=
  meet_with s other.

(** A value built by a sequence of [add]s on an empty set of the given
    capacity. *)
Definition of_list (max_size : N) (l : list N) : outcome SparseSetValue :=
  foldM add (make max_size) l.

(** ** The representation invariant

    [storage_ok]: what the constructors establish about the storage and no
    member function gives up, namely both vectors have [m_capacity] entries
    (and [m_capacity], a [size_t], is below the modulus).

    [rep_inv]: the invariant of the data structure: [sparse[dense[i]] == i]
    for every [i < count], and [count <= capacity]. *)

Record storage_ok (s : SparseSetValue) : Prop := {
  capacity_fits : m_capacity s < size_modulus;
  dense_length : N.of_nat (length (m_dense s)) = m_capacity s;
  sparse_length : N.of_nat (length (m_sparse s)) = m_capacity s;
}.

Record rep_inv (s : SparseSetValue) : Prop := {
  sparse_dense : ∀ i, i < m_element_num s →
    ∃ x, vget (m_dense s) i = Ret x ∧ vget (m_sparse s) x = Ret i;
  count_le_capacity : m_element_num s <= m_capacity s;
}.

Definition wf (s : SparseSetValue) : Prop := storage_ok s ∧ rep_inv s.

(** The invariant as a check that runs. *)
Definition slot_ok (s : SparseSetValue) (i : nat) : bool :=
  match m_dense s !! i with
  | Some x =>
      match m_sparse s !! N.to_nat x with
      | Some j => j =? N.of_nat i
      | None => false
      end
  | None => false
  end.

Definition wfb (s : SparseSetValue) : bool :=
  (m_capacity s <? size_modulus)
  && (N.of_nat (length (m_dense s)) =? m_capacity s)
  && (N.of_nat (length (m_sparse s)) =? m_capacity s)
  && (m_element_num s <=? m_capacity s)
  && forallb (slot_ok s) (seq 0 (N.to_nat (m_element_num s))).

(** The element set of a value as a list: the valid prefix of [m_dense]. *)
Definition elems (s : SparseSetValue) : list N :=
  take (N.to_nat (m_element_num s)) (m_dense s).

(** The state after the three stores of [add]. *)
Definition pushed (s : SparseSetValue) (e : N) : SparseSetValue :=
  {| m_capacity := m_capacity s;
     m_element_num := m_element_num s + 1;
     m_dense := <[N.to_nat (m_element_num s) := e]> (m_dense s);
     m_sparse := <[N.to_nat e := m_element_num s]> (m_sparse s) |}.

(** The state after the three stores of [remove], for the slot [dense_idx]
    of the removed element and the last element [last]. *)
Definition swapped_out (s : SparseSetValue) (dense_idx last : N)
  : SparseSetValue :=
  {| m_capacity := m_capacity s;
     m_element_num := m_element_num s - 1;
     m_dense := <[N.to_nat dense_idx := last]> (m_dense s);
     m_sparse := <[N.to_nat last := dense_idx]> (m_sparse s) |}.

(** ** Values an owner of the class can hold

    Whatever is built by a constructor and then changed through the member
    functions. *)
Inductive reachable : SparseSetValue → Prop :=
  | reach_default : reachable default_value
  | reach_make max_size :
      max_size < size_modulus → reachable (make max_size)
  | reach_clear s : reachable s → reachable (clear s)
  | reach_add s e s' : reachable s → add s e = Ret s' → reachable s'
  | reach_remove s e s' : reachable s → remove s e = Ret s' → reachable s'
  | reach_join s other s' k :
      reachable s → reachable other →
      join_with s other = Ret (s', k) → reachable s'
  | reach_widen s other s' k :
      reachable s → reachable other →
      widen_with s other = Ret (s', k) → reachable s'
  | reach_meet s other s' k :
      reachable s → reachable other →
      meet_with s other = Ret (s', k) → reachable s'
  | reach_narrow s other s' k :
      reachable s → reachable other →
      narrow_with s other = Ret (s', k) → reachable s'.

(** ** The values of the specification's scenarios *)

(** Capacity 8, elements 1, 3, 5 added in this order. *)
Definition set_135 : SparseSetValue :=
  {| m_capacity := 8; m_element_num := 3;
     m_dense := [1; 3; 5; 0; 0; 0; 0; 0];
     m_sparse := [0; 0; 0; 1; 0; 2; 0; 0] |}.

(** Capacity 8, elements 3, 5, 7 added in this order. *)
Definition set_357 : SparseSetValue :=
  {| m_capacity := 8; m_element_num := 3;
     m_dense := [3; 5; 7; 0; 0; 0; 0; 0];
     m_sparse := [0; 0; 0; 0; 0; 1; 0; 2] |}.

(** Capacity 8, elements 1, 3, 5, 7: the join of the two. *)
Definition set_1357 : SparseSetValue :=
  {| m_capacity := 8; m_element_num := 4;
     m_dense := [1; 3; 5; 7; 0; 0; 0; 0];
     m_sparse := [0; 0; 0; 1; 0; 2; 0; 3] |}.

(** Capacity 4, elements 0, 2. *)
Definition set_02 : SparseSetValue :=
  {| m_capacity := 4; m_element_num := 2;
     m_dense := [0; 2; 0; 0];
     m_sparse := [0; 0; 1; 0] |}.

(** Capacity 10, element 9. *)
Definition set_9 : SparseSetValue :=
  {| m_capacity := 10; m_element_num := 1;
     m_dense := [9; 0; 0; 0; 0; 0; 0; 0; 0; 0];
     m_sparse := [0; 0; 0; 0; 0; 0; 0; 0; 0; 0] |}.

(** ** [operator<<]

    The stream is the string of the characters written so far.  [size()] is a
    [size_t] and is written in decimal.  How an element is written depends
    on [IntegerType] (a number, or a character for [unsigned char]), so the
    formatting of an element is a parameter. *)

(** The loop over the copy of the elements: an element, then the separator
    unless the iterator has reached the end. *)
Fixpoint print_elements (show : N → string) (o : string) (l : list N)
  : string :=
  match l with
  | [] => o
  | x :: l' =>
      let o := o +:+ show x in
      let o := match l' with [] => o | _ :: _ => o +:+ ", " end in
      print_elements show o l'
  end.

Definition print (show : N → string) (o : string) (value : SparseSetValue)
  : outcome string :=
  let o := o +:+ "[#" +:+ pretty (size value) +:+ "]" in
  let* elements := elements value in
  let o := o +:+ "{" in
  let o := print_elements show o elements in
  Ret (o +:+ "}").

(** ** Vectors and machine arithmetic *)

Lemma vget_Ret {A} (v : list A) i x :
  vget v i = Ret x ↔ v !! N.to_nat i = Some x.
Proof.
  unfold vget. destruct (v !! N.to_nat i); split; intros H; congruence.
Qed.

Lemma vget_lt {A} (v : list A) i :
  i < N.of_nat (length v) → ∃ x, vget v i = Ret x ∧ v !! N.to_nat i = Some x.
Proof.
  intros Hi. destruct (lookup_lt_is_Some_2 v (N.to_nat i)) as [x Hx]; [lia|].
  exists x. split; [by apply vget_Ret | done].
Qed.

Lemma vget_Ret_lt {A} (v : list A) i x :
  vget v i = Ret x → i < N.of_nat (length v).
Proof. rewrite vget_Ret. intros H%lookup_lt_Some. lia. Qed.

Lemma vset_lt {A} (v : list A) i x :
  i < N.of_nat (length v) → vset v i x = Ret (<[N.to_nat i := x]> v).
Proof. intros Hi. unfold vset. case_decide; [done | lia]. Qed.

Lemma size_succ_small n : n + 1 < size_modulus → size_succ n = n + 1.
Proof. intros H. unfold size_succ. by apply N.mod_small. Qed.

Lemma size_pred_small n :
  0 < n → n < size_modulus → size_pred n = n - 1.
Proof.
  intros H0 H. unfold size_pred.
  replace (n + size_modulus - 1) with (n - 1 + 1 * size_modulus) by lia.
  rewrite N.Div0.mod_add. apply N.mod_small. lia.
Qed.

(** ** The invariant that runs agrees with the stated one *)

Lemma wfb_sound s : wfb s = true → wf s.
Proof.
  unfold wfb. rewrite !andb_true_iff, forallb_forall.
  intros [[[[Hc Hd] Hs] Hn] Hall].
  apply N.ltb_lt in Hc. apply N.eqb_eq in Hd, Hs. apply N.leb_le in Hn.
  split; constructor; try done.
  intros i Hi. specialize (Hall (N.to_nat i)).
  unfold slot_ok in Hall. rewrite in_seq in Hall.
  destruct (m_dense s !! N.to_nat i) as [x|] eqn:Hx; [|by (discriminate Hall; lia)].
  exists x. split; [by apply vget_Ret|].
  destruct (m_sparse s !! N.to_nat x) as [j|] eqn:Hj; [|by (discriminate Hall; lia)].
  apply vget_Ret. rewrite Hj. f_equal.
  assert ((j =? N.of_nat (N.to_nat i)) = true) as Hji by (apply Hall; lia).
  apply N.eqb_eq in Hji. lia.
Qed.

(** ** What the invariant says about the element list *)

Section Invariant.
Variable s : SparseSetValue.
Hypothesis Hwf : wf s.

Lemma wf_slot i :
  i < m_element_num s →
  ∃ x, m_dense s !! N.to_nat i = Some x
       ∧ m_sparse s !! N.to_nat x = Some i
       ∧ x < m_capacity s.
Proof.
  destruct Hwf as [Hst Hri]. intros Hi.
  destruct (sparse_dense s Hri i Hi) as (x & Hx & Hsx).
  exists x. rewrite <- !vget_Ret. split_and!; try done.
  apply vget_Ret_lt in Hsx. by rewrite (sparse_length s Hst) in Hsx.
Qed.

Lemma elems_length : N.of_nat (length (elems s)) = m_element_num s.
Proof.
  destruct Hwf as [Hst Hri]. unfold elems. rewrite length_take.
  pose proof (count_le_capacity s Hri). pose proof (dense_length s Hst). lia.
Qed.

Lemma elems_lookup (i : nat) x :
  elems s !! i = Some x ↔
  (N.of_nat i < m_element_num s) ∧ m_dense s !! i = Some x.
Proof.
  unfold elems. rewrite lookup_take_Some. split; intros [H1 H2]; split; try done; lia.
Qed.

Lemma elem_of_elems x :
  x ∈ elems s ↔ ∃ i, i < m_element_num s ∧ m_dense s !! N.to_nat i = Some x.
Proof.
  rewrite list_elem_of_lookup. split.
  - intros [i [Hi Hx]%elems_lookup]. exists (N.of_nat i).
    rewrite Nat2N.id. done.
  - intros (i & Hi & Hx). exists (N.to_nat i). apply elems_lookup.
    split; [lia | done].
Qed.

Lemma elems_sparse x :
  x ∈ elems s →
  ∃ i, i < m_element_num s ∧ m_sparse s !! N.to_nat x = Some i
       ∧ m_dense s !! N.to_nat i = Some x.
Proof.
  intros (i & Hi & Hx)%elem_of_elems.
  destruct (wf_slot i Hi) as (y & Hy & Hsy & _).
  assert (y = x) as -> by congruence. eauto.
Qed.

Lemma elems_lt_capacity x : x ∈ elems s → x < m_capacity s.
Proof.
  intros (i & Hi & Hx)%elem_of_elems.
  destruct (wf_slot i Hi) as (y & Hy & _ & Hlt). congruence.
Qed.

Lemma elems_NoDup : NoDup (elems s).
Proof.
  apply NoDup_alt. intros i j x [Hi Hxi]%elems_lookup [Hj Hxj]%elems_lookup.
  destruct (wf_slot (N.of_nat i) Hi) as (y & Hy & Hsy & _).
  destruct (wf_slot (N.of_nat j) Hj) as (z & Hz & Hsz & _).
  rewrite Nat2N.id in Hy, Hz.
  assert (y = x) as -> by congruence. assert (z = x) as -> by congruence.
  rewrite Hsy in Hsz. injection Hsz. lia.
Qed.

(** Membership is list membership in the valid prefix, and never faults. *)
Lemma contains_elems e : contains s e = Ret (bool_decide (e ∈ elems s)).
Proof.
  destruct Hwf as [Hst Hri]. unfold contains.
  destruct (N.leb_spec (m_capacity s) e) as [Hge|Hlt].
  - rewrite bool_decide_eq_false_2; [done|].
    intros Hin%elems_lt_capacity. lia.
  - destruct (vget_lt (m_sparse s) e) as (di & -> & Hdi);
      [by rewrite (sparse_length s Hst)|]. simpl.
    destruct (N.ltb_spec di (m_element_num s)) as [Hdlt|Hdge].
    + destruct (wf_slot di Hdlt) as (y & Hy & Hsy & _).
      apply vget_Ret in Hy as Hy'. rewrite Hy'. simpl. f_equal.
      destruct (N.eqb_spec y e) as [->|Hne].
      * symmetry. apply bool_decide_eq_true_2. apply elem_of_elems. eauto.
      * symmetry. apply bool_decide_eq_false_2.
        intros (i & Hi & Hsi & Hdx)%elems_sparse. congruence.
    + rewrite bool_decide_eq_false_2; [done|].
      intros (i & Hi & Hsi & Hdx)%elems_sparse.
      assert (i = di) by congruence. lia.
Qed.

Lemma contains_true e : contains s e = Ret true ↔ e ∈ elems s.
Proof.
  rewrite contains_elems. split.
  - intros [= H]. by apply bool_decide_eq_true in H.
  - intros H. by rewrite bool_decide_eq_true_2.
Qed.

Lemma contains_false e : contains s e = Ret false ↔ e ∉ elems s.
Proof.
  rewrite contains_elems. split.
  - intros [= H]. by apply bool_decide_eq_false in H.
  - intros H. by rewrite bool_decide_eq_false_2.
Qed.

Lemma end_pos_count : end_pos s = Ret (m_element_num s).
Proof.
  destruct Hwf as [Hst Hri]. unfold end_pos.
  pose proof (count_le_capacity s Hri). pose proof (dense_length s Hst).
  case_decide; [done | lia].
Qed.

Lemma range_elems : range s = Ret (elems s).
Proof. unfold range. by rewrite end_pos_count. Qed.
End Invariant.

(** Pigeonhole: a duplicate-free list of numbers below [n] has at most [n]
    entries. *)
Lemma NoDup_bounded_length (l : list N) (n : N) :
  NoDup l → (∀ x, x ∈ l → x < n) → N.of_nat (length l) <= n.
Proof.
  intros Hnd Hlt.
  assert (length (N.to_nat <$> l) ≤ length (seq 0 (N.to_nat n)))%nat as Hle.
  { apply submseteq_length, NoDup_submseteq.
    - apply (NoDup_fmap_2 _), Hnd.
    - intros y (x & -> & Hx)%list_elem_of_fmap. apply elem_of_seq.
      specialize (Hlt x Hx). lia. }
  rewrite length_fmap, length_seq in Hle. lia.
Qed.

(** A value that lacks an element of its universe is not full. *)
Lemma absent_room s e :
  wf s → e < m_capacity s → e ∉ elems s → m_element_num s < m_capacity s.
Proof.
  intros Hwf He Hnin.
  pose proof (NoDup_bounded_length (e :: elems s) (m_capacity s)) as Hp.
  rewrite <- (elems_length s Hwf).
  cbn [length] in Hp. 
  assert (N.of_nat (S (length (elems s))) <= m_capacity s); [|lia].
  apply Hp.
  - apply NoDup_cons. split; [done | by apply elems_NoDup].
  - intros x [->|Hx]%elem_of_cons; [done | by apply elems_lt_capacity].
Qed.

(** ** [add] *)

Lemma add_out_of_range s e : m_capacity s <= e → add s e = Ret s.
Proof.
  intros He. unfold add. destruct (N.ltb_spec e (m_capacity s)); [lia | done].
Qed.

(** The guard of [add] is the negation of [contains]. *)
Lemma add_unfold s e :
  e < m_capacity s →
  add s e =
    let* c := contains s e in
    if c : bool then Ret s
    else
      let* sparse' := vset (m_sparse s) e (m_element_num s) in
      let* dense' := vset (m_dense s) (m_element_num s) e in
      Ret {| m_capacity := m_capacity s;
             m_element_num := size_succ (m_element_num s);
             m_dense := dense';
             m_sparse := sparse' |}.
Proof.
  intros He. unfold add, contains.
  destruct (N.ltb_spec e (m_capacity s)); [|lia].
  destruct (N.leb_spec (m_capacity s) e); [lia|].
  destruct (vget (m_sparse s) e) as [di| |]; simpl; try done.
  destruct (N.leb_spec (m_element_num s) di), (N.ltb_spec di (m_element_num s));
    try lia; simpl; try done.
  destruct (vget (m_dense s) di) as [x| |]; simpl; try done.
  by destruct (x =? e).
Qed.

Lemma add_present s e : wf s → e ∈ elems s → add s e = Ret s.
Proof.
  intros Hwf Hin. rewrite add_unfold by (by apply elems_lt_capacity).
  apply (contains_true s Hwf) in Hin. by rewrite Hin.
Qed.

Lemma add_absent s e :
  wf s → e < m_capacity s → e ∉ elems s → add s e = Ret (pushed s e).
Proof.
  intros Hwf He Hnin. rewrite add_unfold by done.
  pose proof (absent_room s e Hwf He Hnin) as Hroom.
  apply (contains_false s Hwf) in Hnin. rewrite Hnin. simpl.
  destruct Hwf as [Hst Hri].
  rewrite vset_lt by (by rewrite (sparse_length s Hst)). simpl.
  rewrite vset_lt by (by rewrite (dense_length s Hst)). simpl.
  rewrite size_succ_small; [done|].
  pose proof (capacity_fits s Hst). lia.
Qed.

Lemma pushed_elems s e :
  wf s → m_element_num s < m_capacity s → elems (pushed s e) = elems s ++ [e].
Proof.
  intros [Hst Hri] Hroom. unfold elems, pushed. simpl.
  replace (N.to_nat (m_element_num s + 1)) with (S (N.to_nat (m_element_num s)))
    by lia.
  pose proof (dense_length s Hst).
  rewrite (take_S_r _ _ e) by (apply list_lookup_insert_eq; lia).
  by rewrite take_insert_ge.
Qed.

Lemma pushed_wf s e :
  wf s → e < m_capacity s → e ∉ elems s → wf (pushed s e).
Proof.
  intros Hwf He Hnin.
  pose proof (absent_room s e Hwf He Hnin) as Hroom.
  pose proof Hwf as [Hst Hri].
  pose proof (dense_length s Hst). pose proof (sparse_length s Hst).
  split; constructor; simpl; rewrite ?length_insert; try done.
  - by apply capacity_fits.
  - intros i Hi. destruct (decide (i = m_element_num s)) as [->|Hne].
    + exists e. rewrite !vget_Ret.
      split; apply list_lookup_insert_eq; lia.
    + destruct (wf_slot s Hwf i) as (x & Hx & Hsx & _); [lia|].
      exists x. rewrite !vget_Ret.
      assert (x ≠ e).
      { intros ->. apply Hnin. apply elem_of_elems. exists i. split; [lia|done]. }
      rewrite !list_lookup_insert_ne by lia. done.
  - lia.
Qed.

(** ** [remove] *)

(** The guard of [remove] is [contains]. *)
Lemma remove_unfold s e :
  remove s e =
    let* c := contains s e in
    if c : bool then
      let* dense_idx := vget (m_sparse s) e in
      let* last_element := vget (m_dense s) (size_pred (m_element_num s)) in
      let* dense' := vset (m_dense s) dense_idx last_element in
      let* sparse' := vset (m_sparse s) last_element dense_idx in
      Ret {| m_capacity := m_capacity s;
             m_element_num := size_pred (m_element_num s);
             m_dense := dense';
             m_sparse := sparse' |}
    else Ret s.
Proof.
  unfold remove, contains.
  destruct (N.ltb_spec e (m_capacity s)), (N.leb_spec (m_capacity s) e);
    try lia; simpl; try done.
  by destruct (vget (m_sparse s) e) as [di| |].
Qed.

Lemma remove_absent s e : contains s e = Ret false → remove s e = Ret s.
Proof. intros H. by rewrite remove_unfold, H. Qed.

Lemma remove_present s e :
  wf s → e ∈ elems s →
  ∃ di last,
    m_sparse s !! N.to_nat e = Some di
    ∧ di < m_element_num s
    ∧ m_dense s !! N.to_nat di = Some e
    ∧ m_dense s !! N.to_nat (m_element_num s - 1) = Some last
    ∧ m_sparse s !! N.to_nat last = Some (m_element_num s - 1)
    ∧ remove s e = Ret (swapped_out s di last).
Proof.
  intros Hwf Hin.
  destruct (elems_sparse s Hwf e Hin) as (di & Hdi & Hsp & Hde).
  destruct (wf_slot s Hwf (m_element_num s - 1)) as (last & Hl & Hsl & Hlc);
    [lia|].
  exists di, last. split_and!; try done.
  rewrite remove_unfold. apply (contains_true s Hwf) in Hin. rewrite Hin. simpl.
  destruct Hwf as [Hst Hri].
  pose proof (capacity_fits s Hst). pose proof (count_le_capacity s Hri).
  pose proof (dense_length s Hst). pose proof (sparse_length s Hst).
  apply vget_Ret in Hsp as ->. simpl.
  rewrite size_pred_small by lia.
  apply vget_Ret in Hl as ->. simpl.
  rewrite vset_lt by lia. simpl.
  rewrite vset_lt by (rewrite length_insert || idtac; lia). done.
Qed.

Section SwappedOut.
Variables (s : SparseSetValue) (e di last : N).
Hypothesis Hwf : wf s.
Hypothesis Hsp : m_sparse s !! N.to_nat e = Some di.
Hypothesis Hdi : di < m_element_num s.
Hypothesis Hde : m_dense s !! N.to_nat di = Some e.
Hypothesis Hl : m_dense s !! N.to_nat (m_element_num s - 1) = Some last.
Hypothesis Hsl : m_sparse s !! N.to_nat last = Some (m_element_num s - 1).

Lemma swapped_out_wf : wf (swapped_out s di last).
Proof.
  pose proof Hwf as [Hst Hri].
  pose proof (dense_length s Hst). pose proof (sparse_length s Hst).
  pose proof (count_le_capacity s Hri).
  apply lookup_lt_Some in Hsl as Hlast.
  split; constructor; simpl; rewrite ?length_insert; try done.
  - by apply capacity_fits.
  - intros i Hi. destruct (decide (i = di)) as [->|Hne].
    + exists last. rewrite !vget_Ret.
      split; apply list_lookup_insert_eq; lia.
    + destruct (wf_slot s Hwf i) as (x & Hx & Hsx & _); [lia|].
      exists x. rewrite !vget_Ret.
      assert (x ≠ last).
      { intros ->. rewrite Hsl in Hsx. injection Hsx. lia. }
      rewrite !list_lookup_insert_ne by lia. done.
  - lia.
Qed.

Lemma swapped_out_elems x :
  x ∈ elems (swapped_out s di last) ↔ x ∈ elems s ∧ x ≠ e.
Proof.
  pose proof Hwf as [Hst Hri].
  pose proof (dense_length s Hst).
  pose proof (count_le_capacity s Hri).
  rewrite !elem_of_elems. simpl. split.
  - intros (i & Hi & Hx). destruct (decide (i = di)) as [->|Hne].
    + rewrite list_lookup_insert_eq in Hx by lia.
      injection Hx as <-. split.
      * exists (m_element_num s - 1). split; [lia | done].
      * intros ->. rewrite Hsl in Hsp. injection Hsp. lia.
    + rewrite list_lookup_insert_ne in Hx by lia. split.
      * exists i. split; [lia | done].
      * intros ->.
        destruct (wf_slot s Hwf i) as (y & Hy & Hsy & _); [lia|].
        assert (y = e) as -> by congruence. congruence.
  - intros [(j & Hj & Hx) Hne].
    assert (j ≠ di) by (intros ->; congruence).
    destruct (decide (j = m_element_num s - 1)) as [->|Hnl].
    + exists di. split; [lia|].
      assert (x = last) as -> by congruence.
      apply list_lookup_insert_eq. lia.
    + exists j. split; [lia|].
      rewrite list_lookup_insert_ne by lia. done.
Qed.

(** Slots other than the removed one keep their entry. *)
Lemma swapped_out_dense (j : N) :
  j ≠ di →
  m_dense (swapped_out s di last) !! N.to_nat j = m_dense s !! N.to_nat j.
Proof. intros Hne. simpl. apply list_lookup_insert_ne. lia. Qed.
End SwappedOut.

(** ** Specifications of [add] and [remove] on well-formed values *)

Lemma add_spec s e :
  wf s →
  ∃ s', add s e = Ret s'
        ∧ wf s'
        ∧ m_capacity s' = m_capacity s
        ∧ elems s' =
            (if bool_decide (e < m_capacity s ∧ e ∉ elems s)
             then elems s ++ [e] else elems s).
Proof.
  intros Hwf. case_bool_decide as Hc.
  - destruct Hc as [He Hnin]. exists (pushed s e).
    split_and!; [by apply add_absent | by apply pushed_wf | done |].
    apply pushed_elems; [done | by apply (absent_room s e)].
  - exists s. split_and!; try done.
    destruct (decide (e < m_capacity s)) as [He|He].
    + apply add_present; [done|].
      destruct (decide (e ∈ elems s)); [done | tauto].
    + apply add_out_of_range. lia.
Qed.

Lemma remove_spec s e :
  wf s →
  ∃ s', remove s e = Ret s'
        ∧ wf s'
        ∧ m_capacity s' = m_capacity s
        ∧ ∀ x, x ∈ elems s' ↔ x ∈ elems s ∧ x ≠ e.
Proof.
  intros Hwf. destruct (decide (e ∈ elems s)) as [Hin|Hnin].
  - destruct (remove_present s e Hwf Hin)
      as (di & last & Hsp & Hdi & Hde & Hl & Hsl & Hrm).
    exists (swapped_out s di last). split_and!; try done.
    + by apply swapped_out_wf.
    + by apply swapped_out_elems.
  - exists s. split_and!; try done.
    + by apply remove_absent, contains_false.
    + intros x. split; [|tauto]. intros Hx. split; [done | congruence].
Qed.

(** ** [join_with] *)

Lemma add_all_spec l : ∀ s,
  wf s →
  ∃ s', foldM add s l = Ret s'
        ∧ wf s'
        ∧ m_capacity s' = m_capacity s
        ∧ (∀ x, x ∈ elems s' ↔ x ∈ elems s ∨ (x ∈ l ∧ x < m_capacity s))
        ∧ elems s `prefix_of` elems s'.
Proof.
  induction l as [|a l IH]; intros s Hwf; simpl.
  - exists s. split_and!; try done.
    intros x. rewrite elem_of_nil. tauto.
  - destruct (add_spec s a Hwf) as (s1 & -> & Hwf1 & Hc1 & He1). simpl.
    destruct (IH s1 Hwf1) as (s2 & -> & Hwf2 & Hc2 & He2 & Hp2).
    exists s2. split_and!; try done; [congruence | |].
    + intros x. rewrite He2, He1, Hc1, elem_of_cons.
      case_bool_decide as Hc.
      * rewrite elem_of_app, list_elem_of_singleton.
        split; [|intros [?|[[->|?] ?]]; tauto].
        intros [[?| ->]|[? ?]]; tauto.
      * split; [tauto|]. intros [?|[[->|?] ?]]; try tauto.
        destruct (decide (a ∈ elems s)); tauto.
    + etrans; [|exact Hp2]. rewrite He1. case_bool_decide; [|done].
      by apply prefix_app_r.
Qed.

Lemma grow_spec s other :
  wf s → wf other →
  wf (grow s other)
  ∧ m_capacity (grow s other) = N.max (m_capacity s) (m_capacity other)
  ∧ elems (grow s other) = elems s.
Proof.
  intros Hwf Hwfo. unfold grow.
  destruct (N.ltb_spec (m_capacity s) (m_capacity other)) as [Hlt|Hge].
  2: { split_and!; [done | lia | done]. }
  pose proof Hwf as [Hst Hri]. destruct Hwfo as [Hsto _].
  pose proof (dense_length s Hst). pose proof (sparse_length s Hst).
  pose proof (count_le_capacity s Hri).
  split_and!; [| simpl; lia |].
  - split; constructor; simpl; rewrite ?length_resize; try lia.
    + by apply capacity_fits.
    + intros i Hi. destruct (wf_slot s Hwf i Hi) as (x & Hx & Hsx & Hxc).
      exists x. rewrite !vget_Ret, !lookup_resize by lia. done.
  - unfold elems. simpl. rewrite resize_ge by lia.
    rewrite take_app_le by lia. done.
Qed.

Lemma join_with_spec s other :
  wf s → wf other →
  ∃ s', join_with s other = Ret (s', Value)
        ∧ wf s'
        ∧ m_capacity s' = N.max (m_capacity s) (m_capacity other)
        ∧ (∀ x, x ∈ elems s' ↔ x ∈ elems s ∨ x ∈ elems other)
        ∧ elems s `prefix_of` elems s'.
Proof.
  intros Hwf Hwfo. unfold join_with.
  destruct (grow_spec s other Hwf Hwfo) as (Hwf1 & Hc1 & He1).
  rewrite (range_elems other Hwfo). simpl.
  destruct (add_all_spec (elems other) _ Hwf1) as (s2 & -> & Hwf2 & Hc2 & He2 & Hp2).
  simpl. exists s2. split_and!; try done; [congruence | | by rewrite <- He1].
  intros x. rewrite He2, He1, Hc1. split; [tauto|].
  intros [?|Hx]; [tauto|]. right. split; [done|].
  apply (elems_lt_capacity other Hwfo) in Hx. lia.
Qed.

(** ** [meet_with] *)

Lemma meet_loop_spec other fuel : ∀ s i,
  wf s → wf other →
  i <= m_element_num s →
  (N.to_nat (m_element_num s - i) < fuel)%nat →
  (∀ j, j < i → ∃ x, m_dense s !! N.to_nat j = Some x ∧ x ∈ elems other) →
  ∃ s', meet_loop fuel s other i = Ret s'
        ∧ wf s'
        ∧ m_capacity s' = m_capacity s
        ∧ ∀ x, x ∈ elems s' ↔ x ∈ elems s ∧ x ∈ elems other.
Proof.
  induction fuel as [|fuel IH]; intros s i Hwf Hwfo Hi Hfuel Hseen; [lia|].
  simpl. rewrite (end_pos_count s Hwf). simpl.
  destruct (N.eqb_spec i (m_element_num s)) as [->|Hne].
  - exists s. split_and!; try done.
    intros x. split; [|tauto]. intros Hx. split; [done|].
    apply elem_of_elems in Hx as (j & Hj & Hx).
    destruct (Hseen j Hj) as (y & Hy & Hyo). congruence.
  - assert (i < m_element_num s) as Hlt by lia.
    destruct (wf_slot s Hwf i Hlt) as (x & Hx & Hsx & Hxc).
    apply vget_Ret in Hx as Hx'. rewrite Hx'. simpl.
    rewrite (contains_elems other Hwfo). simpl.
    case_bool_decide as Hxo.
    + apply IH; try done; [lia | lia |].
      intros j Hj. destruct (decide (j = i)) as [->|Hji]; [eauto|].
      apply Hseen. lia.
    + assert (x ∈ elems s) as Hxs by (apply elem_of_elems; eauto).
      destruct (remove_present s x Hwf Hxs)
        as (di & last & Hsp & Hdi & Hde & Hl & Hsl & ->).
      assert (di = i) as -> by congruence. simpl.
      destruct (IH (swapped_out s i last) i) as (s' & -> & Hwf' & Hc' & He');
        try done.
      * by apply swapped_out_wf.
      * simpl. lia.
      * simpl. lia.
      * intros j Hj. rewrite swapped_out_dense by lia. by apply Hseen.
      * exists s'. split_and!; try done.
        intros y. rewrite He', (swapped_out_elems s x) by done.
        split; [tauto|]. intros [? ?]. split_and!; try done. congruence.
Qed.

Lemma meet_with_spec s other :
  wf s → wf other →
  ∃ s', meet_with s other = Ret (s', Value)
        ∧ wf s'
        ∧ m_capacity s' = m_capacity s
        ∧ ∀ x, x ∈ elems s' ↔ x ∈ elems s ∧ x ∈ elems other.
Proof.
  intros Hwf Hwfo. unfold meet_with.
  destruct (meet_loop_spec other (S (N.to_nat (m_element_num s))) s 0)
    as (s' & -> & H); try done; try lia.
  simpl. by exists s'.
Qed.

(** ** [leq] and [equals] *)

Lemma leq_loop_spec s other :
  wf other →
  ∀ k i,
    (N.to_nat i + k ≤ length (m_dense s))%nat →
    leq_loop k s other i =
      Ret (forallb (λ x, bool_decide (x ∈ elems other))
                   (take k (drop (N.to_nat i) (m_dense s)))).
Proof.
  intros Hwfo. induction k as [|k IH]; intros i Hlen; simpl; [done|].
  destruct (lookup_lt_is_Some_2 (m_dense s) (N.to_nat i)) as [x Hx]; [lia|].
  rewrite (drop_S _ x) by done. simpl.
  apply vget_Ret in Hx as ->. simpl.
  rewrite (contains_elems other Hwfo). simpl.
  destruct (bool_decide (x ∈ elems other)); simpl; [|done].
  rewrite IH by lia. by replace (N.to_nat (i + 1)) with (S (N.to_nat i)) by lia.
Qed.

(** More elements than the other value has cannot all be in it. *)
Lemma subset_count s other :
  wf s → wf other →
  (∀ x, x ∈ elems s → x ∈ elems other) →
  m_element_num s <= m_element_num other.
Proof.
  intros Hwf Hwfo Hsub.
  rewrite <- (elems_length s Hwf), <- (elems_length other Hwfo).
  assert (length (elems s) ≤ length (elems other))%nat; [|lia].
  apply submseteq_length, NoDup_submseteq; [by apply elems_NoDup | done].
Qed.

Lemma leq_spec s other :
  wf s → wf other →
  ∃ b, leq s other = Ret b
       ∧ (b = true ↔ ∀ x, x ∈ elems s → x ∈ elems other).
Proof.
  intros Hwf Hwfo. unfold leq.
  destruct (N.ltb_spec (m_element_num other) (m_element_num s)) as [Hlt|Hge].
  - exists false. split; [done|]. split; [done|].
    intros Hsub%subset_count; [lia | done | done].
  - destruct Hwf as [Hst Hri].
    pose proof (dense_length s Hst). pose proof (count_le_capacity s Hri).
    rewrite leq_loop_spec by (done || lia).
    eexists. split; [done|]. change (N.to_nat 0) with 0%nat.
    rewrite drop_0, forallb_forall. fold (elems s).
    split; intros Hall x Hx.
    + apply list_elem_of_In, Hall in Hx. by apply bool_decide_eq_true in Hx.
    + apply bool_decide_eq_true_2, Hall, list_elem_of_In, Hx.
Qed.

Lemma leq_true s other :
  wf s → wf other →
  leq s other = Ret true ↔ ∀ x, x ∈ elems s → x ∈ elems other.
Proof.
  intros Hwf Hwfo. destruct (leq_spec s other Hwf Hwfo) as (b & -> & Hb).
  rewrite <- Hb. split; congruence.
Qed.

Lemma equals_true s other :
  wf s → wf other →
  equals s other = Ret true ↔ ∀ x, x ∈ elems s ↔ x ∈ elems other.
Proof.
  intros Hwf Hwfo. unfold equals.
  destruct (N.eqb_spec (m_element_num s) (m_element_num other)) as [Heq|Hne].
  - rewrite leq_true by done. split; [|intros H x; by apply H].
    intros Hsub x. split; [by apply Hsub|].
    (* the reverse inclusion: equal counts and one inclusion *)
    intros Hx. destruct (decide (x ∈ elems s)) as [|Hnin]; [done|]. exfalso.
    assert (length (x :: elems s) ≤ length (elems other))%nat as Hlen.
    { apply submseteq_length, NoDup_submseteq.
      - apply NoDup_cons. split; [done | by apply elems_NoDup].
      - intros y [->|Hy]%elem_of_cons; [done | by apply Hsub]. }
    pose proof (elems_length s Hwf). pose proof (elems_length other Hwfo).
    simpl in Hlen. lia.
  - split; [done|]. intros Heq. exfalso. apply Hne.
    apply N.le_antisymm; apply subset_count; try done; intros x; by apply Heq.
Qed.

(** ** A value combined with itself

    [join_with] and [meet_with] take [other] by reference, and a caller may
    pass the object itself.  The run then reads the object as it changes,
    where the functions above read a copy taken at the call.  On a
    well-formed value neither run ever stores: every element met is already
    present, so both give the value back as it was. *)

Lemma add_all_present l : ∀ s,
  wf s → (∀ x, x ∈ l → x ∈ elems s) → foldM add s l = Ret s.
Proof.
  induction l as [|a l IH]; intros s Hwf Hin; simpl; [done|].
  rewrite add_present by (done || apply Hin, elem_of_cons; by left). simpl.
  apply IH; [done|]. intros x Hx. apply Hin, elem_of_cons. by right.
Qed.

Lemma join_with_self s : wf s → join_with s s = Ret (s, Value).
Proof.
  intros Hwf. unfold join_with, grow. rewrite N.ltb_irrefl.
  rewrite (range_elems s Hwf). simpl.
  by rewrite add_all_present.
Qed.

Lemma meet_loop_self s : wf s → ∀ fuel i,
  i <= m_element_num s →
  (N.to_nat (m_element_num s - i) < fuel)%nat →
  meet_loop fuel s s i = Ret s.
Proof.
  intros Hwf. induction fuel as [|fuel IH]; intros i Hi Hfuel; [lia|].
  simpl. rewrite (end_pos_count s Hwf). simpl.
  destruct (N.eqb_spec i (m_element_num s)) as [->|Hne]; [done|].
  destruct (wf_slot s Hwf i) as (x & Hx & _); [lia|].
  assert (x ∈ elems s) as Hin by (apply elem_of_elems; exists i; split; [lia|done]).
  apply vget_Ret in Hx as ->. simpl.
  apply (contains_true s Hwf) in Hin as ->. simpl.
  apply IH; lia.
Qed.

Lemma meet_with_self s : wf s → meet_with s s = Ret (s, Value).
Proof.
  intros Hwf. unfold meet_with. by rewrite meet_loop_self by (done || lia).
Qed.

(** ** Constructors, [clear], and every value a holder can have *)

Lemma default_value_wf : wf default_value.
Proof. by apply wfb_sound. Qed.

Lemma make_wf max_size : max_size < size_modulus → wf (make max_size).
Proof.
  intros Hm. split; constructor; simpl; rewrite ?length_replicate; try lia.
Qed.

Lemma clear_wf s : wf s → wf (clear s).
Proof.
  intros [[] []]. split; constructor; simpl; try done; lia.
Qed.

Lemma reachable_wf s : reachable s → wf s.
Proof.
  induction 1 as [ | n Hn | s _ IH | s e s' _ IH Hop | s e s' _ IH Hop
                 | s o s' k _ IHs _ IHo Hop | s o s' k _ IHs _ IHo Hop
                 | s o s' k _ IHs _ IHo Hop | s o s' k _ IHs _ IHo Hop ].
  - apply default_value_wf.
  - by apply make_wf.
  - by apply clear_wf.
  - destruct (add_spec s e IH) as (t & Ht & Hwf & _). congruence.
  - destruct (remove_spec s e IH) as (t & Ht & Hwf & _). congruence.
  - destruct (join_with_spec s o IHs IHo) as (t & Ht & Hwf & _). congruence.
  - destruct (join_with_spec s o IHs IHo) as (t & Ht & Hwf & _).
    unfold widen_with in Hop. congruence.
  - destruct (meet_with_spec s o IHs IHo) as (t & Ht & Hwf & _). congruence.
  - destruct (meet_with_spec s o IHs IHo) as (t & Ht & Hwf & _).
    unfold narrow_with in Hop. congruence.
Qed.

(** Two well-formed values with the same members answer [contains] alike. *)
Lemma contains_ext s t :
  wf s → wf t → (∀ x, x ∈ elems s ↔ x ∈ elems t) →
  ∀ e, contains s e = contains t e.
Proof.
  intros Hs Ht Heq e. rewrite (contains_elems s Hs), (contains_elems t Ht).
  f_equal. apply bool_decide_ext, Heq.
Qed.

(** ** The scenarios of the specification *)

Example scenario_1_build_A : of_list 8 [1; 3; 5] = Ret set_135.
Proof. reflexivity. Qed.

Example scenario_1_build_B : of_list 8 [3; 5; 7] = Ret set_357.
Proof. reflexivity. Qed.

Example scenario_1_join :
  join_with set_135 set_357 = Ret (set_1357, Value)
  ∧ elements set_1357 = Ret [1; 3; 5; 7] ∧ size set_1357 = 4.
Proof. split; [reflexivity|]. split; reflexivity. Qed.

Example scenario_1_meet :
  ∃ s, meet_with set_135 set_357 = Ret (s, Value)
       ∧ elements s = Ret [5; 3] ∧ size s = 2.
Proof. eexists. split; [reflexivity|]. split; reflexivity. Qed.

Example scenario_1_leq : leq set_135 set_357 = Ret false.
Proof. reflexivity. Qed.

Example scenario_1_contains : contains set_135 9 = Ret false.
Proof. reflexivity. Qed.

Example scenario_2_growth :
  ∃ s, join_with set_02 set_9 = Ret (s, Value)
       ∧ m_capacity s = 10 ∧ elements s = Ret [0; 2; 9].
Proof. eexists. split; [reflexivity|]. split; reflexivity. Qed.

(** * The contract of the sparse-set value *)

(** C5. [contains(e)] answers true exactly when [e < capacity],
    [sparse[e] < count] and [dense[sparse[e]] == e]; for every [e] at or
    beyond the capacity it answers false. *)
Theorem contains_characterization (s : SparseSetValue) (e : N) :
  (contains s e = Ret true ↔
     e < m_capacity s
     ∧ ∃ dense_idx,
         vget (m_sparse s) e = Ret dense_idx
         ∧ dense_idx < m_element_num s
         ∧ vget (m_dense s) dense_idx = Ret e)
  ∧ (m_capacity s <= e → contains s e = Ret false).
Proof.
  unfold contains. split.
  - destruct (N.leb_spec (m_capacity s) e) as [Hge|Hlt].
    + split; [done|]. intros [? _]. lia.
    + destruct (vget (m_sparse s) e) as [di| |] eqn:Hsp; simpl.
      2,3: split; [done|]; by intros (_ & ? & ? & _).
      destruct (N.ltb_spec di (m_element_num s)) as [Hd|Hd].
      * destruct (vget (m_dense s) di) as [x| |] eqn:Hde; simpl.
        2,3: split; [done|]; intros (_ & ? & [= <-] & _ & ?); congruence.
        destruct (N.eqb_spec x e) as [->|Hne].
        -- split; [|done]. intros _. split; [done|]. by exists di.
        -- split; [done|]. intros (_ & ? & [= <-] & _ & ?). congruence.
      * split; [done|]. intros (_ & ? & [= <-] & ? & _). lia.
  - intros Hge. by destruct (N.leb_spec (m_capacity s) e); [|lia].
Qed.

(** C6. For an element [e] below the capacity of a well-formed value,
    [add(e)] makes [contains(e)] true, and a following [remove(e)] makes it
    false; that [remove] copies the last dense entry into the slot of [e],
    points the sparse entry of that last element at the slot and decrements
    the count. *)
Theorem add_then_remove (s : SparseSetValue) (e : N) :
  wf s → e < m_capacity s →
  ∃ s1 s2 dense_idx last_element,
    add s e = Ret s1
    ∧ contains s1 e = Ret true
    ∧ remove s1 e = Ret s2
    ∧ contains s2 e = Ret false
    ∧ vget (m_sparse s1) e = Ret dense_idx
    ∧ vget (m_dense s1) (m_element_num s1 - 1) = Ret last_element
    ∧ s2 = {| m_capacity := m_capacity s1;
              m_element_num := m_element_num s1 - 1;
              m_dense := <[N.to_nat dense_idx := last_element]> (m_dense s1);
              m_sparse := <[N.to_nat last_element := dense_idx]> (m_sparse s1) |}.
Proof.
  intros Hwf He.
  destruct (add_spec s e Hwf) as (s1 & Hadd & Hwf1 & Hc1 & He1).
  assert (e ∈ elems s1) as Hin.
  { rewrite He1. case_bool_decide as Hc.
    - apply elem_of_app. right. by apply list_elem_of_singleton.
    - destruct (decide (e ∈ elems s)); [done | tauto]. }
  destruct (remove_present s1 e Hwf1 Hin)
    as (di & last & Hsp & Hdi & Hde & Hl & Hsl & Hrm).
  exists s1, (swapped_out s1 di last), di, last. rewrite !vget_Ret.
  split_and!; try done; [by apply contains_true|].
  apply contains_false; [by apply swapped_out_wf|].
  rewrite (swapped_out_elems s1 e) by done. tauto.
Qed.

Lemma add_then_remove_witness :
  wf set_135 ∧ 6 < m_capacity set_135 ∧
  ∃ s1 s2 dense_idx last_element,
    add set_135 6 = Ret s1
    ∧ contains s1 6 = Ret true
    ∧ remove s1 6 = Ret s2
    ∧ contains s2 6 = Ret false
    ∧ vget (m_sparse s1) 6 = Ret dense_idx
    ∧ vget (m_dense s1) (m_element_num s1 - 1) = Ret last_element
    ∧ s2 = {| m_capacity := m_capacity s1;
              m_element_num := m_element_num s1 - 1;
              m_dense := <[N.to_nat dense_idx := last_element]> (m_dense s1);
              m_sparse := <[N.to_nat last_element := dense_idx]> (m_sparse s1) |}.
Proof.
  assert (wf set_135) as Hwf by (apply wfb_sound; reflexivity).
  assert (6 < m_capacity set_135) as Hlt by reflexivity.
  split; [exact Hwf|]. split; [exact Hlt|].
  exact (add_then_remove set_135 6 Hwf Hlt).
Defined.

(** C7. On a well-formed value [add] is idempotent: a second [add(e)]
    returns the state of the first unchanged.  [remove(e)] of an element
    that is not present returns the state unchanged, all four fields. *)
Theorem add_idempotent_remove_absent (s : SparseSetValue) (e : N) :
  wf s →
  (∃ s1, add s e = Ret s1 ∧ add s1 e = Ret s1)
  ∧ (contains s e = Ret false →
     remove s e = Ret s
     ∧ ∀ s', remove s e = Ret s' →
         m_dense s' = m_dense s ∧ m_sparse s' = m_sparse s
         ∧ m_element_num s' = m_element_num s ∧ m_capacity s' = m_capacity s).
Proof.
  intros Hwf. split.
  - destruct (add_spec s e Hwf) as (s1 & Hadd & Hwf1 & Hc1 & He1).
    exists s1. split; [done|].
    destruct (decide (e < m_capacity s)) as [He|He].
    + apply add_present; [done|]. rewrite He1. case_bool_decide as Hc.
      * apply elem_of_app. right. by apply list_elem_of_singleton.
      * destruct (decide (e ∈ elems s)); [done | tauto].
    + apply add_out_of_range. lia.
  - intros Habs. rewrite (remove_absent s e Habs). split; [done|].
    by intros s' [= <-].
Qed.

Lemma add_idempotent_remove_absent_witness :
  wf set_135 ∧
  (∃ s1, add set_135 7 = Ret s1 ∧ add s1 7 = Ret s1)
  ∧ (contains set_135 7 = Ret false →
     remove set_135 7 = Ret set_135
     ∧ ∀ s', remove set_135 7 = Ret s' →
         m_dense s' = m_dense set_135 ∧ m_sparse s' = m_sparse set_135
         ∧ m_element_num s' = m_element_num set_135
         ∧ m_capacity s' = m_capacity set_135).
Proof.
  assert (wf set_135) as Hwf by (apply wfb_sound; reflexivity).
  split; [exact Hwf|].
  exact (add_idempotent_remove_absent set_135 7 Hwf).
Defined.

(** C8. [add(e)] with [e] at or beyond the capacity returns the state
    unchanged, capacity included.  The default-constructed value has
    capacity 0, so any sequence of [add]s leaves it as it is, and it stays
    empty. *)
Theorem add_out_of_universe (s : SparseSetValue) (e : N) (l : list N) :
  m_capacity s <= e →
  add s e = Ret s
  ∧ m_capacity default_value = 0
  ∧ foldM add default_value l = Ret default_value
  ∧ elements default_value = Ret []
  ∧ size default_value = 0.
Proof.
  intros He. split_and!; try done.
  - by apply add_out_of_range.
  - induction l as [|a l IH]; [done|]. simpl.
    rewrite add_out_of_range by (simpl; lia). done.
Qed.

Lemma add_out_of_universe_witness :
  m_capacity set_135 <= 9 ∧
  add set_135 9 = Ret set_135
  ∧ m_capacity default_value = 0
  ∧ foldM add default_value [0; 1; 2] = Ret default_value
  ∧ elements default_value = Ret []
  ∧ size default_value = 0.
Proof.
  assert (m_capacity set_135 <= 9) as Hle by (vm_compute; discriminate).
  split; [exact Hle|].
  exact (add_out_of_universe set_135 9 [0; 1; 2] Hle).
Defined.

(** C9. [widen_with] is [join_with] and [narrow_with] is [meet_with]: the
    same resulting state and the same returned kind, on every pair of
    values. *)
Theorem widen_narrow_delegate (s other : SparseSetValue) :
  widen_with s other = join_with s other
  ∧ narrow_with s other = meet_with s other.
Proof. split; reflexivity. Qed.

(** C1. [A.join_with(B)] on well-formed values returns kind Value and
    leaves in [A] the union of the two element sets; the capacity becomes
    the larger of the two capacities, and the elements [A] had stay where
    they were, as a prefix of the new element sequence.  On element sets the
    join is commutative and associative. *)
Theorem join_with_union (A B C : SparseSetValue) :
  wf A → wf B → wf C →
  ∃ AB,
    join_with A B = Ret (AB, Value)
    ∧ (∀ e, contains AB e = Ret true ↔
            contains A e = Ret true ∨ contains B e = Ret true)
    ∧ m_capacity AB = N.max (m_capacity A) (m_capacity B)
    ∧ (∃ l l', elements A = Ret l ∧ elements AB = Ret (l ++ l'))
    ∧ (∃ BA,
         join_with B A = Ret (BA, Value)
         ∧ (∀ e, contains AB e = contains BA e)
         ∧ m_capacity AB = m_capacity BA)
    ∧ (∃ AB_C BC A_BC,
         join_with AB C = Ret (AB_C, Value)
         ∧ join_with B C = Ret (BC, Value)
         ∧ join_with A BC = Ret (A_BC, Value)
         ∧ (∀ e, contains AB_C e = contains A_BC e)
         ∧ m_capacity AB_C = m_capacity A_BC).
Proof.
  intros HA HB HC.
  destruct (join_with_spec A B HA HB) as (AB & HjAB & HwAB & HcAB & HeAB & HpAB).
  destruct (join_with_spec B A HB HA) as (BA & HjBA & HwBA & HcBA & HeBA & _).
  destruct (join_with_spec AB C HwAB HC) as (AB_C & Hj1 & Hw1 & Hc1 & He1 & _).
  destruct (join_with_spec B C HB HC) as (BC & Hj2 & Hw2 & Hc2 & He2 & _).
  destruct (join_with_spec A BC HA Hw2) as (A_BC & Hj3 & Hw3 & Hc3 & He3 & _).
  exists AB. split_and!; try done.
  - intros e. rewrite !contains_true by done. apply HeAB.
  - destruct HpAB as [l' Hl']. exists (elems A), l'.
    unfold elements. rewrite !range_elems by done. by rewrite Hl'.
  - exists BA. split_and!; [done | | lia].
    apply contains_ext; try done. intros x. rewrite HeAB, HeBA. tauto.
  - exists AB_C, BC, A_BC. split_and!; [done | done | done | | lia].
    apply contains_ext; try done. intros x.
    rewrite He1, He3, HeAB, He2. tauto.
Qed.

Lemma join_with_union_witness :
  wf set_135 ∧ wf set_357 ∧ wf set_9 ∧
  ∃ AB,
    join_with set_135 set_357 = Ret (AB, Value)
    ∧ (∀ e, contains AB e = Ret true ↔
            contains set_135 e = Ret true ∨ contains set_357 e = Ret true)
    ∧ m_capacity AB = N.max (m_capacity set_135) (m_capacity set_357)
    ∧ (∃ l l', elements set_135 = Ret l ∧ elements AB = Ret (l ++ l'))
    ∧ (∃ BA,
         join_with set_357 set_135 = Ret (BA, Value)
         ∧ (∀ e, contains AB e = contains BA e)
         ∧ m_capacity AB = m_capacity BA)
    ∧ (∃ AB_C BC A_BC,
         join_with AB set_9 = Ret (AB_C, Value)
         ∧ join_with set_357 set_9 = Ret (BC, Value)
         ∧ join_with set_135 BC = Ret (A_BC, Value)
         ∧ (∀ e, contains AB_C e = contains A_BC e)
         ∧ m_capacity AB_C = m_capacity A_BC).
Proof.
  assert (wf set_135) as HA by (apply wfb_sound; reflexivity).
  assert (wf set_357) as HB by (apply wfb_sound; reflexivity).
  assert (wf set_9) as HC by (apply wfb_sound; reflexivity).
  split; [exact HA|]. split; [exact HB|]. split; [exact HC|].
  exact (join_with_union set_135 set_357 set_9 HA HB HC).
Defined.

(** C2. [A.meet_with(B)] on well-formed values terminates, returns kind
    Value and leaves in [A] exactly the elements that were in [A] and are
    in [B].  After a removal the walk stays on the same slot, which now
    holds the element swapped in from the end, so that element is checked
    too and nothing absent from [B] survives. *)
Theorem meet_with_intersection (A B : SparseSetValue) :
  wf A → wf B →
  ∃ A',
    meet_with A B = Ret (A', Value)
    ∧ (∀ e, contains A' e = Ret true ↔
            contains A e = Ret true ∧ contains B e = Ret true)
    ∧ (∀ e, contains B e = Ret false → contains A' e = Ret false)
    ∧ (∀ fuel s i x,
         wf s → i ≠ m_element_num s →
         vget (m_dense s) i = Ret x →
         contains B x = Ret false →
         meet_loop (S fuel) s B i =
           let* s' := remove s x in meet_loop fuel s' B i).
Proof.
  intros HA HB.
  destruct (meet_with_spec A B HA HB) as (A' & Hm & Hw & Hc & He).
  exists A'. split_and!; try done.
  - intros e. rewrite !contains_true by done. apply He.
  - intros e. rewrite !contains_false by done. intros Hn [_ Hin]%He. done.
  - intros fuel s i x Hs Hi Hx Hcx. simpl. rewrite (end_pos_count s Hs). simpl.
    destruct (N.eqb_spec i (m_element_num s)); [done|].
    by rewrite Hx; simpl; rewrite Hcx.
Qed.

Lemma meet_with_intersection_witness :
  wf set_135 ∧ wf set_357 ∧
  ∃ A',
    meet_with set_135 set_357 = Ret (A', Value)
    ∧ (∀ e, contains A' e = Ret true ↔
            contains set_135 e = Ret true ∧ contains set_357 e = Ret true)
    ∧ (∀ e, contains set_357 e = Ret false → contains A' e = Ret false)
    ∧ (∀ fuel s i x,
         wf s → i ≠ m_element_num s →
         vget (m_dense s) i = Ret x →
         contains set_357 x = Ret false →
         meet_loop (S fuel) s set_357 i =
           let* s' := remove s x in meet_loop fuel s' set_357 i).
Proof.
  assert (wf set_135) as HA by (apply wfb_sound; reflexivity).
  assert (wf set_357) as HB by (apply wfb_sound; reflexivity).
  split; [exact HA|]. split; [exact HB|].
  exact (meet_with_intersection set_135 set_357 HA HB).
Defined.

(** C3. On well-formed values [A.leq(B)] returns a boolean, true exactly
    when every element of [A] is contained in [B]; when [A] has more
    elements than [B] it returns false, and then indeed not every element of
    [A] is in [B].  Hence [leq] is reflexive, antisymmetric up to [equals],
    and transitive. *)
Theorem leq_partial_order (A B C : SparseSetValue) :
  wf A → wf B → wf C →
  (∃ b, leq A B = Ret b)
  ∧ (leq A B = Ret true ↔
       ∀ e, contains A e = Ret true → contains B e = Ret true)
  ∧ (size B < size A →
       leq A B = Ret false
       ∧ ¬ ∀ e, contains A e = Ret true → contains B e = Ret true)
  ∧ leq A A = Ret true
  ∧ (leq A B = Ret true → leq B A = Ret true → equals A B = Ret true)
  ∧ (leq A B = Ret true → leq B C = Ret true → leq A C = Ret true).
Proof.
  intros HA HB HC.
  assert (∀ s t, wf s → wf t →
            (∀ e, contains s e = Ret true → contains t e = Ret true) ↔
            (∀ x, x ∈ elems s → x ∈ elems t)) as Hsub.
  { intros s t Hs Ht.
    split; intros H x; specialize (H x);
      by rewrite !contains_true in * by done. }
  split_and!.
  - destruct (leq_spec A B HA HB) as (b & Hb & _). eauto.
  - rewrite Hsub by done. by apply leq_true.
  - unfold size. intros Hlt. split.
    + unfold leq. by destruct (N.ltb_spec (m_element_num B) (m_element_num A));
        [|lia].
    + rewrite Hsub by done. intros Hs%subset_count; [lia | done | done].
  - by apply leq_true.
  - intros HAB HBA. apply equals_true; try done.
    rewrite leq_true in HAB, HBA by done. intros x. split; auto.
  - rewrite !leq_true by done. intros HAB HBC x Hx. auto.
Qed.

Lemma leq_partial_order_witness :
  wf set_135 ∧ wf set_1357 ∧ wf set_1357 ∧
  (∃ b, leq set_135 set_1357 = Ret b)
  ∧ (leq set_135 set_1357 = Ret true ↔
       ∀ e, contains set_135 e = Ret true → contains set_1357 e = Ret true)
  ∧ (size set_1357 < size set_135 →
       leq set_135 set_1357 = Ret false
       ∧ ¬ ∀ e, contains set_135 e = Ret true → contains set_1357 e = Ret true)
  ∧ leq set_135 set_135 = Ret true
  ∧ (leq set_135 set_1357 = Ret true → leq set_1357 set_135 = Ret true →
     equals set_135 set_1357 = Ret true)
  ∧ (leq set_135 set_1357 = Ret true → leq set_1357 set_1357 = Ret true →
     leq set_135 set_1357 = Ret true).
Proof.
  assert (wf set_135) as HA by (apply wfb_sound; reflexivity).
  assert (wf set_1357) as HB by (apply wfb_sound; reflexivity).
  split; [exact HA|]. split; [exact HB|]. split; [exact HB|].
  exact (leq_partial_order set_135 set_1357 set_1357 HA HB HB).
Defined.

(** C4. Every operation maps well-formed values to well-formed values: the
    vectors keep [capacity] entries, [sparse[dense[i]] == i] holds for every
    [i < count], and [count <= capacity]; [size()] is the count. *)
Theorem invariant_preserved (s other : SparseSetValue) (e : N) :
  wf s → wf other →
  (storage_ok (clear s) ∧ rep_inv (clear s))
  ∧ (∃ s', add s e = Ret s' ∧ storage_ok s' ∧ rep_inv s')
  ∧ (∃ s', remove s e = Ret s' ∧ storage_ok s' ∧ rep_inv s')
  ∧ (∃ s', join_with s other = Ret (s', Value) ∧ storage_ok s' ∧ rep_inv s')
  ∧ (∃ s', widen_with s other = Ret (s', Value) ∧ storage_ok s' ∧ rep_inv s')
  ∧ (∃ s', meet_with s other = Ret (s', Value) ∧ storage_ok s' ∧ rep_inv s')
  ∧ (∃ s', narrow_with s other = Ret (s', Value) ∧ storage_ok s' ∧ rep_inv s')
  ∧ (∀ t, size t = m_element_num t).
Proof.
  intros Hwf Hwfo.
  destruct (add_spec s e Hwf) as (sa & Ha & [] & _).
  destruct (remove_spec s e Hwf) as (sr & Hr & [] & _).
  destruct (join_with_spec s other Hwf Hwfo) as (sj & Hj & [] & _).
  destruct (meet_with_spec s other Hwf Hwfo) as (sm & Hm & [] & _).
  split; [by apply clear_wf|].
  split; [by exists sa|]. split; [by exists sr|].
  split; [by exists sj|]. split; [by exists sj|].
  split; [by exists sm|]. split; [by exists sm|]. done.
Qed.

Lemma invariant_preserved_witness :
  wf set_135 ∧ wf set_9 ∧
  (storage_ok (clear set_135) ∧ rep_inv (clear set_135))
  ∧ (∃ s', add set_135 1 = Ret s' ∧ storage_ok s' ∧ rep_inv s')
  ∧ (∃ s', remove set_135 1 = Ret s' ∧ storage_ok s' ∧ rep_inv s')
  ∧ (∃ s', join_with set_135 set_9 = Ret (s', Value)
           ∧ storage_ok s' ∧ rep_inv s')
  ∧ (∃ s', widen_with set_135 set_9 = Ret (s', Value)
           ∧ storage_ok s' ∧ rep_inv s')
  ∧ (∃ s', meet_with set_135 set_9 = Ret (s', Value)
           ∧ storage_ok s' ∧ rep_inv s')
  ∧ (∃ s', narrow_with set_135 set_9 = Ret (s', Value)
           ∧ storage_ok s' ∧ rep_inv s')
  ∧ (∀ t, size t = m_element_num t).
Proof.
  assert (wf set_135) as HA by (apply wfb_sound; reflexivity).
  assert (wf set_9) as HB by (apply wfb_sound; reflexivity).
  split; [exact HA|]. split; [exact HB|].
  exact (invariant_preserved set_135 set_9 1 HA HB).
Defined.

(** C10. On well-formed values no access of [contains], [add], [remove],
    [join_with] or [meet_with] leaves its vector: each of them returns a
    result, so the checked indexing never reports a fault (and the loops
    end).  [remove] reads [dense[count - 1]] only for a present element,
    and then the count is at least 1. *)
Theorem accesses_in_bounds (s other : SparseSetValue) (e : N) :
  wf s → wf other →
  (∃ b, contains s e = Ret b)
  ∧ (∃ s', add s e = Ret s')
  ∧ (∃ s', remove s e = Ret s')
  ∧ (∃ r, join_with s other = Ret r)
  ∧ (∃ r, meet_with s other = Ret r)
  ∧ (contains s e = Ret true → 1 <= m_element_num s)
  ∧ contains s e ≠ Fault ∧ add s e ≠ Fault ∧ remove s e ≠ Fault
  ∧ join_with s other ≠ Fault ∧ meet_with s other ≠ Fault.
Proof.
  intros Hwf Hwfo.
  destruct (add_spec s e Hwf) as (sa & Ha & _).
  destruct (remove_spec s e Hwf) as (sr & Hr & _).
  destruct (join_with_spec s other Hwf Hwfo) as (sj & Hj & _).
  destruct (meet_with_spec s other Hwf Hwfo) as (sm & Hm & _).
  rewrite Ha, Hr, Hj, Hm, (contains_elems s Hwf).
  split_and!; eauto.
  intros [= Hin%bool_decide_eq_true].
  apply elem_of_elems in Hin as (i & Hi & _). lia.
Qed.

Lemma accesses_in_bounds_witness :
  wf set_135 ∧ wf set_357 ∧
  (∃ b, contains set_135 5 = Ret b)
  ∧ (∃ s', add set_135 5 = Ret s')
  ∧ (∃ s', remove set_135 5 = Ret s')
  ∧ (∃ r, join_with set_135 set_357 = Ret r)
  ∧ (∃ r, meet_with set_135 set_357 = Ret r)
  ∧ (contains set_135 5 = Ret true → 1 <= m_element_num set_135)
  ∧ contains set_135 5 ≠ Fault ∧ add set_135 5 ≠ Fault
  ∧ remove set_135 5 ≠ Fault
  ∧ join_with set_135 set_357 ≠ Fault ∧ meet_with set_135 set_357 ≠ Fault.
Proof.
  assert (wf set_135) as HA by (apply wfb_sound; reflexivity).
  assert (wf set_357) as HB by (apply wfb_sound; reflexivity).
  split; [exact HA|]. split; [exact HB|].
  exact (accesses_in_bounds set_135 set_357 5 HA HB).
Defined.


(** * Further properties of the class *)

(** ** Helpers *)

Lemma contains_agree s t x :
  wf s → wf t → (x ∈ elems s ↔ x ∈ elems t) → contains s x = contains t x.
Proof.
  intros Hs Ht Hiff. rewrite (contains_elems s Hs), (contains_elems t Ht).
  f_equal. by apply bool_decide_ext.
Qed.

Lemma elements_elems s : wf s → elements s = Ret (elems s).
Proof. intros Hwf. unfold elements. by apply range_elems. Qed.

Lemma add_capacity s e s' : add s e = Ret s' → m_capacity s' = m_capacity s.
Proof.
  unfold add. destruct (e <? m_capacity s); [|by intros [= <-]].
  destruct (vget (m_sparse s) e) as [di| |]; simpl; try done.
  destruct (if m_element_num s <=? di then _ else _) as [[]| |]; simpl;
    try done; [|by intros [= <-]].
  destruct (vset (m_sparse s) e _) as [sp| |]; simpl; try done.
  destruct (vset (m_dense s) _ e) as [de| |]; simpl; try done.
  by intros [= <-].
Qed.

Lemma remove_capacity s e s' :
  remove s e = Ret s' → m_capacity s' = m_capacity s.
Proof.
  unfold remove. destruct (e <? m_capacity s); [|by intros [= <-]].
  destruct (vget (m_sparse s) e) as [di| |]; simpl; try done.
  destruct (if di <? m_element_num s then _ else _) as [[]| |]; simpl;
    try done; [|by intros [= <-]].
  destruct (vget (m_dense s) _) as [la| |]; simpl; try done.
  destruct (vset (m_dense s) di la) as [de| |]; simpl; try done.
  destruct (vset (m_sparse s) la di) as [sp| |]; simpl; try done.
  by intros [= <-].
Qed.

Lemma add_all_capacity l : ∀ s s',
  foldM add s l = Ret s' → m_capacity s' = m_capacity s.
Proof.
  induction l as [|a l IH]; intros s s'; simpl; [by intros [= <-]|].
  destruct (add s a) as [s1| |] eqn:Ha; simpl; try done.
  intros H%IH. rewrite H. by apply add_capacity in Ha.
Qed.

Lemma meet_loop_capacity other fuel : ∀ s i s',
  meet_loop fuel s other i = Ret s' → m_capacity s' = m_capacity s.
Proof.
  induction fuel as [|fuel IH]; intros s i s'; simpl; [done|].
  destruct (end_pos s) as [e| |]; simpl; try done.
  destruct (i =? e); [by intros [= <-]|].
  destruct (vget (m_dense s) i) as [x| |]; simpl; try done.
  destruct (contains other x) as [[]| |]; simpl; try done; [by apply IH|].
  destruct (remove s x) as [s1| |] eqn:Hr; simpl; try done.
  intros H%IH. rewrite H. by apply remove_capacity in Hr.
Qed.

(** ** Construction, [clear], [elements] and [size] *)

(** X1. [SparseSetValue(max_size)] is the empty set over a universe of
    [max_size] elements: it is well-formed, has capacity [max_size], size 0
    and no elements, and [contains] answers false for every element. *)
Theorem make_is_empty (max_size e : N) :
  max_size < size_modulus →
  storage_ok (make max_size) ∧ rep_inv (make max_size)
  ∧ m_capacity (make max_size) = max_size
  ∧ size (make max_size) = 0
  ∧ elements (make max_size) = Ret []
  ∧ contains (make max_size) e = Ret false.
Proof.
  intros Hm. pose proof (make_wf max_size Hm) as Hwf.
  split; [apply Hwf|]. split; [apply Hwf|].
  split_and!; try done; try (by rewrite elements_elems).
  apply contains_false; [done|]. unfold elems. simpl. apply not_elem_of_nil.
Qed.

Lemma make_is_empty_witness :
  8 < size_modulus ∧
  storage_ok (make 8) ∧ rep_inv (make 8)
  ∧ m_capacity (make 8) = 8
  ∧ size (make 8) = 0
  ∧ elements (make 8) = Ret []
  ∧ contains (make 8) 3 = Ret false.
Proof.
  assert (8 < size_modulus) as Hm by reflexivity.
  split; [exact Hm|]. exact (make_is_empty 8 3 Hm).
Defined.

(** X2. [clear()] empties a well-formed value by resetting the count only:
    capacity and both vectors are kept as they are, the result is
    well-formed, has size 0 and no elements, and [contains] is false for
    every element although the sparse entries of the old members are still
    in place. *)
Theorem clear_empties (s : SparseSetValue) (e : N) :
  wf s →
  m_capacity (clear s) = m_capacity s
  ∧ m_dense (clear s) = m_dense s
  ∧ m_sparse (clear s) = m_sparse s
  ∧ size (clear s) = 0
  ∧ elements (clear s) = Ret []
  ∧ contains (clear s) e = Ret false
  ∧ wf (clear s).
Proof.
  intros Hwf. pose proof (clear_wf s Hwf) as Hc.
  split_and!; try done; try (by rewrite elements_elems).
  apply contains_false; [done|]. unfold elems. simpl. apply not_elem_of_nil.
Qed.

Lemma clear_empties_witness :
  wf set_135 ∧
  m_capacity (clear set_135) = m_capacity set_135
  ∧ m_dense (clear set_135) = m_dense set_135
  ∧ m_sparse (clear set_135) = m_sparse set_135
  ∧ size (clear set_135) = 0
  ∧ elements (clear set_135) = Ret []
  ∧ contains (clear set_135) 3 = Ret false
  ∧ wf (clear set_135).
Proof.
  assert (wf set_135) as HA by (apply wfb_sound; reflexivity).
  split; [exact HA|]. exact (clear_empties set_135 3 HA).
Defined.

(** X3. On a well-formed value [elements()] returns a duplicate-free
    sequence whose length is [size()], whose members are exactly the
    elements for which [contains] is true, all of them below the capacity;
    so [size()] counts the members and never exceeds the capacity. *)
Theorem elements_size_contains (s : SparseSetValue) :
  wf s →
  ∃ l,
    elements s = Ret l
    ∧ N.of_nat (length l) = size s
    ∧ NoDup l
    ∧ (∀ e, contains s e = Ret true ↔ e ∈ l)
    ∧ (∀ e, e ∈ l → e < m_capacity s)
    ∧ size s <= m_capacity s.
Proof.
  intros Hwf. exists (elems s). split_and!.
  - by apply elements_elems.
  - by apply elems_length.
  - by apply elems_NoDup.
  - intros e. by apply contains_true.
  - intros e. by apply elems_lt_capacity.
  - destruct Hwf as [_ Hri]. apply (count_le_capacity s Hri).
Qed.

Lemma elements_size_contains_witness :
  wf set_135 ∧
  ∃ l,
    elements set_135 = Ret l
    ∧ N.of_nat (length l) = size set_135
    ∧ NoDup l
    ∧ (∀ e, contains set_135 e = Ret true ↔ e ∈ l)
    ∧ (∀ e, e ∈ l → e < m_capacity set_135)
    ∧ size set_135 <= m_capacity set_135.
Proof.
  assert (wf set_135) as HA by (apply wfb_sound; reflexivity).
  split; [exact HA|]. exact (elements_size_contains set_135 HA).
Defined.

(** ** [add] and [remove] leave the other elements alone *)

(** X4. [add(e)] on a well-formed value keeps the capacity and the answer
    of [contains] for every other element; when [e] is below the capacity
    and was absent, [e] is appended at the end of the element sequence and
    the size grows by exactly one. *)
Theorem add_frame (s : SparseSetValue) (e : N) :
  wf s →
  ∃ s' l,
    add s e = Ret s'
    ∧ elements s = Ret l
    ∧ m_capacity s' = m_capacity s
    ∧ (∀ x, x ≠ e → contains s' x = contains s x)
    ∧ (e < m_capacity s → contains s e = Ret false →
       elements s' = Ret (l ++ [e]) ∧ size s' = size s + 1).
Proof.
  intros Hwf. destruct (add_spec s e Hwf) as (s' & Ha & Hwf' & Hc & He).
  exists s', (elems s). split_and!; try done.
  - by apply elements_elems.
  - intros x Hx. apply contains_agree; try done. rewrite He.
    case_bool_decide; [|done].
    rewrite elem_of_app, list_elem_of_singleton. tauto.
  - intros Hlt Habs%contains_false; [|done].
    rewrite bool_decide_eq_true_2 in He by done.
    rewrite elements_elems by done. split; [by rewrite He|].
    unfold size. rewrite <- (elems_length s' Hwf'), <- (elems_length s Hwf), He.
    rewrite length_app. simpl. lia.
Qed.

Lemma add_frame_witness :
  wf set_135 ∧
  ∃ s' l,
    add set_135 6 = Ret s'
    ∧ elements set_135 = Ret l
    ∧ m_capacity s' = m_capacity set_135
    ∧ (∀ x, x ≠ 6 → contains s' x = contains set_135 x)
    ∧ (6 < m_capacity set_135 → contains set_135 6 = Ret false →
       elements s' = Ret (l ++ [6]) ∧ size s' = size set_135 + 1).
Proof.
  assert (wf set_135) as HA by (apply wfb_sound; reflexivity).
  split; [exact HA|]. exact (add_frame set_135 6 HA).
Defined.

(** X5. [remove(e)] on a well-formed value keeps the capacity, makes
    [contains(e)] false and keeps the answer of [contains] for every other
    element; when [e] was present the size drops by exactly one. *)
Theorem remove_frame (s : SparseSetValue) (e : N) :
  wf s →
  ∃ s',
    remove s e = Ret s'
    ∧ wf s'
    ∧ m_capacity s' = m_capacity s
    ∧ contains s' e = Ret false
    ∧ (∀ x, x ≠ e → contains s' x = contains s x)
    ∧ (contains s e = Ret true → size s' + 1 = size s).
Proof.
  intros Hwf. destruct (remove_spec s e Hwf) as (s' & Hr & Hwf' & Hc & He).
  exists s'. split_and!; try done.
  - apply contains_false; [done|]. rewrite He. tauto.
  - intros x Hx. apply contains_agree; try done. rewrite He. tauto.
  - intros Hin%contains_true; [|done].
    destruct (remove_present s e Hwf Hin)
      as (di & last & _ & Hdi & _ & _ & _ & Hrm).
    assert (s' = swapped_out s di last) as -> by congruence.
    unfold size. simpl. lia.
Qed.

Lemma remove_frame_witness :
  wf set_135 ∧
  ∃ s',
    remove set_135 1 = Ret s'
    ∧ wf s'
    ∧ m_capacity s' = m_capacity set_135
    ∧ contains s' 1 = Ret false
    ∧ (∀ x, x ≠ 1 → contains s' x = contains set_135 x)
    ∧ (contains set_135 1 = Ret true → size s' + 1 = size set_135).
Proof.
  assert (wf set_135) as HA by (apply wfb_sound; reflexivity).
  split; [exact HA|]. exact (remove_frame set_135 1 HA).
Defined.

(** X6. Adding an absent element below the capacity and removing it again
    gives back the same element sequence, in the same order, with the same
    size and capacity. *)
Theorem add_remove_round_trip (s : SparseSetValue) (e : N) :
  wf s → e < m_capacity s → contains s e = Ret false →
  ∃ s1 s2,
    add s e = Ret s1
    ∧ remove s1 e = Ret s2
    ∧ elements s2 = elements s
    ∧ size s2 = size s
    ∧ m_capacity s2 = m_capacity s
    ∧ equals s2 s = Ret true.
Proof.
  intros Hwf He Habs%contains_false; [|done].
  pose proof (pushed_wf s e Hwf He Habs) as Hwf1.
  pose proof (absent_room s e Hwf He Habs) as Hroom.
  assert (e ∈ elems (pushed s e)) as Hin.
  { rewrite pushed_elems by done. apply elem_of_app. right.
    by apply list_elem_of_singleton. }
  destruct (remove_present (pushed s e) e Hwf1 Hin)
    as (di & last & Hsp & Hdi & Hde & Hl & Hsl & Hrm).
  pose proof Hwf as [Hst Hri].
  pose proof (dense_length s Hst). pose proof (sparse_length s Hst).
  simpl in Hsp, Hl.
  rewrite list_lookup_insert_eq in Hsp by lia. injection Hsp as <-.
  replace (N.to_nat (m_element_num s + 1 - 1)) with (N.to_nat (m_element_num s))
    in Hl by lia.
  rewrite list_lookup_insert_eq in Hl by lia. injection Hl as <-.
  assert (wf (swapped_out (pushed s e) (m_element_num s) e)) as Hwf2
    by (by eapply swapped_out_wf).
  assert (elems (swapped_out (pushed s e) (m_element_num s) e) = elems s) as Hel.
  { unfold elems. simpl.
    replace (N.to_nat (m_element_num s + 1 - 1))
      with (N.to_nat (m_element_num s)) by lia.
    by rewrite !take_insert_ge by lia. }
  exists (pushed s e), (swapped_out (pushed s e) (m_element_num s) e).
  split_and!; try done.
  - by apply add_absent.
  - by rewrite !elements_elems, Hel.
  - unfold size. simpl. lia.
  - apply equals_true; try done. intros x. by rewrite Hel.
Qed.

Lemma add_remove_round_trip_witness :
  wf set_135 ∧ 6 < m_capacity set_135 ∧ contains set_135 6 = Ret false ∧
  ∃ s1 s2,
    add set_135 6 = Ret s1
    ∧ remove s1 6 = Ret s2
    ∧ elements s2 = elements set_135
    ∧ size s2 = size set_135
    ∧ m_capacity s2 = m_capacity set_135
    ∧ equals s2 set_135 = Ret true.
Proof.
  assert (wf set_135) as HA by (apply wfb_sound; reflexivity).
  assert (6 < m_capacity set_135) as Hlt by reflexivity.
  assert (contains set_135 6 = Ret false) as Hc by reflexivity.
  split; [exact HA|]. split; [exact Hlt|]. split; [exact Hc|].
  exact (add_remove_round_trip set_135 6 HA Hlt Hc).
Defined.

(** X7. Removing a present element and adding it again restores the
    element set and the size; the element now stands last in the element
    sequence. *)
Theorem remove_add_restores (s : SparseSetValue) (e : N) :
  wf s → contains s e = Ret true →
  ∃ s1 s2 l,
    remove s e = Ret s1
    ∧ add s1 e = Ret s2
    ∧ elements s1 = Ret l
    ∧ elements s2 = Ret (l ++ [e])
    ∧ size s2 = size s
    ∧ equals s2 s = Ret true.
Proof.
  intros Hwf Hin%contains_true; [|done].
  destruct (remove_spec s e Hwf) as (s1 & Hr & Hwf1 & Hc1 & He1).
  assert (e ∉ elems s1) as Habs by (rewrite He1; tauto).
  assert (e < m_capacity s1) as Hlt
    by (rewrite Hc1; by apply elems_lt_capacity).
  pose proof (pushed_wf s1 e Hwf1 Hlt Habs) as Hwf2.
  pose proof (pushed_elems s1 e Hwf1 (absent_room s1 e Hwf1 Hlt Habs)) as He2.
  assert (∀ x, x ∈ elems (pushed s1 e) ↔ x ∈ elems s) as Hsame.
  { intros x. rewrite He2, elem_of_app, list_elem_of_singleton, He1.
    destruct (decide (x = e)) as [->|]; tauto. }
  exists s1, (pushed s1 e), (elems s1). split_and!; try done.
  - by apply add_absent.
  - by apply elements_elems.
  - rewrite elements_elems by done. by rewrite He2.
  - apply N.le_antisymm; apply subset_count; try done; intros x; by apply Hsame.
  - by apply equals_true.
Qed.

Lemma remove_add_restores_witness :
  wf set_135 ∧ contains set_135 1 = Ret true ∧
  ∃ s1 s2 l,
    remove set_135 1 = Ret s1
    ∧ add s1 1 = Ret s2
    ∧ elements s1 = Ret l
    ∧ elements s2 = Ret (l ++ [1])
    ∧ size s2 = size set_135
    ∧ equals s2 set_135 = Ret true.
Proof.
  assert (wf set_135) as HA by (apply wfb_sound; reflexivity).
  assert (contains set_135 1 = Ret true) as Hc by reflexivity.
  split; [exact HA|]. split; [exact Hc|].
  exact (remove_add_restores set_135 1 HA Hc).
Defined.

(** ** [equals] *)

Lemma equals_spec s t :
  wf s → wf t →
  ∃ b, equals s t = Ret b ∧ (b = true ↔ ∀ x, x ∈ elems s ↔ x ∈ elems t).
Proof.
  intros Hs Ht. pose proof (equals_true s t Hs Ht) as Hiff.
  assert (∃ b, equals s t = Ret b) as [b Hb].
  { unfold equals. destruct (m_element_num s =? m_element_num t); [|eauto].
    destruct (leq_spec s t Hs Ht) as (b & Hb & _). eauto. }
  exists b. split; [done|]. rewrite <- Hiff, Hb. split; congruence.
Qed.

Lemma same_members_contains s t :
  wf s → wf t →
  (∀ e, contains s e = contains t e) ↔ (∀ x, x ∈ elems s ↔ x ∈ elems t).
Proof.
  intros Hs Ht. split.
  - intros H x. by rewrite <- (contains_true s Hs), <- (contains_true t Ht), H.
  - intros H. by apply contains_ext.
Qed.

(** X8. On well-formed values [equals] returns a boolean, true exactly when
    the two values answer [contains] alike for every element, whatever their
    capacities and the order of their dense sequences; it holds exactly when
    [leq] holds both ways, and it is reflexive, symmetric and transitive. *)
Theorem equals_equivalence (A B C : SparseSetValue) :
  wf A → wf B → wf C →
  (∃ b, equals A B = Ret b)
  ∧ (equals A B = Ret true ↔ ∀ e, contains A e = contains B e)
  ∧ (equals A B = Ret true ↔ leq A B = Ret true ∧ leq B A = Ret true)
  ∧ equals A A = Ret true
  ∧ equals B A = equals A B
  ∧ (equals A B = Ret true → equals B C = Ret true → equals A C = Ret true).
Proof.
  intros HA HB HC.
  destruct (equals_spec A B HA HB) as (b & Hb & Hbt).
  destruct (equals_spec B A HB HA) as (b' & Hb' & Hbt').
  split_and!.
  - eauto.
  - rewrite same_members_contains by done. by apply equals_true.
  - rewrite equals_true, !leq_true by done. split.
    + intros H. split; intros x; by apply H.
    + intros [H1 H2] x. split; auto.
  - by apply equals_true.
  - rewrite Hb, Hb'. f_equal. apply eq_true_iff_eq.
    rewrite Hbt, Hbt'. split; intros H x; by rewrite H.
  - rewrite !equals_true by done. intros H1 H2 x. by rewrite H1.
Qed.

Lemma equals_equivalence_witness :
  wf set_135 ∧ wf set_357 ∧ wf set_9 ∧
  (∃ b, equals set_135 set_357 = Ret b)
  ∧ (equals set_135 set_357 = Ret true ↔
       ∀ e, contains set_135 e = contains set_357 e)
  ∧ (equals set_135 set_357 = Ret true ↔
       leq set_135 set_357 = Ret true ∧ leq set_357 set_135 = Ret true)
  ∧ equals set_135 set_135 = Ret true
  ∧ equals set_357 set_135 = equals set_135 set_357
  ∧ (equals set_135 set_357 = Ret true → equals set_357 set_9 = Ret true →
     equals set_135 set_9 = Ret true).
Proof.
  assert (wf set_135) as HA by (apply wfb_sound; reflexivity).
  assert (wf set_357) as HB by (apply wfb_sound; reflexivity).
  assert (wf set_9) as HC by (apply wfb_sound; reflexivity).
  split; [exact HA|]. split; [exact HB|]. split; [exact HC|].
  exact (equals_equivalence set_135 set_357 set_9 HA HB HC).
Defined.

(** ** [join_with] and [meet_with] against [leq] *)

(** X9. The result of [A.join_with(B)] is the least upper bound of the two
    values for [leq]: both are below it, and it is below every value both
    are below.  Its size is at least the size of [A], at most the sum of the
    two sizes and at most its capacity. *)
Theorem join_with_least_upper_bound (A B C : SparseSetValue) :
  wf A → wf B → wf C →
  ∃ J,
    join_with A B = Ret (J, Value)
    ∧ leq A J = Ret true
    ∧ leq B J = Ret true
    ∧ (leq A C = Ret true → leq B C = Ret true → leq J C = Ret true)
    ∧ size A <= size J
    ∧ size J <= size A + size B
    ∧ size J <= m_capacity J.
Proof.
  intros HA HB HC.
  destruct (join_with_spec A B HA HB) as (J & Hj & HwJ & HcJ & HeJ & HpJ).
  exists J. split_and!; try done.
  - apply leq_true; try done. intros x Hx. apply HeJ. by left.
  - apply leq_true; try done. intros x Hx. apply HeJ. by right.
  - rewrite !leq_true by done. intros H1 H2 x [?|?]%HeJ; auto.
  - apply subset_count; try done. intros x Hx. apply HeJ. by left.
  - unfold size.
    rewrite <- (elems_length J HwJ), <- (elems_length A HA),
      <- (elems_length B HB).
    assert (length (elems J) ≤ length (elems A ++ elems B))%nat as Hle.
    { apply submseteq_length, NoDup_submseteq; [by apply elems_NoDup|].
      intros x Hx%HeJ. by apply elem_of_app. }
    rewrite length_app in Hle. lia.
  - destruct HwJ as [_ Hri]. apply (count_le_capacity J Hri).
Qed.

Lemma join_with_least_upper_bound_witness :
  wf set_135 ∧ wf set_357 ∧ wf set_1357 ∧
  ∃ J,
    join_with set_135 set_357 = Ret (J, Value)
    ∧ leq set_135 J = Ret true
    ∧ leq set_357 J = Ret true
    ∧ (leq set_135 set_1357 = Ret true → leq set_357 set_1357 = Ret true →
       leq J set_1357 = Ret true)
    ∧ size set_135 <= size J
    ∧ size J <= size set_135 + size set_357
    ∧ size J <= m_capacity J.
Proof.
  assert (wf set_135) as HA by (apply wfb_sound; reflexivity).
  assert (wf set_357) as HB by (apply wfb_sound; reflexivity).
  assert (wf set_1357) as HC by (apply wfb_sound; reflexivity).
  split; [exact HA|]. split; [exact HB|]. split; [exact HC|].
  exact (join_with_least_upper_bound set_135 set_357 set_1357 HA HB HC).
Defined.

(** X10. The result of [A.meet_with(B)] is the greatest lower bound of the
    two values for [leq].  It never has more elements than [A], and it keeps
    the capacity of [A] even when [B] has a larger one. *)
Theorem meet_with_greatest_lower_bound (A B C : SparseSetValue) :
  wf A → wf B → wf C →
  ∃ M,
    meet_with A B = Ret (M, Value)
    ∧ leq M A = Ret true
    ∧ leq M B = Ret true
    ∧ (leq C A = Ret true → leq C B = Ret true → leq C M = Ret true)
    ∧ size M <= size A
    ∧ m_capacity M = m_capacity A.
Proof.
  intros HA HB HC.
  destruct (meet_with_spec A B HA HB) as (M & Hm & HwM & HcM & HeM).
  exists M. split_and!; try done.
  - apply leq_true; try done. intros x Hx. by apply HeM.
  - apply leq_true; try done. intros x Hx. by apply HeM.
  - rewrite !leq_true by done. intros H1 H2 x Hx. apply HeM. auto.
  - apply subset_count; try done. intros x Hx. by apply HeM.
Qed.

Lemma meet_with_greatest_lower_bound_witness :
  wf set_02 ∧ wf set_9 ∧ wf set_135 ∧
  ∃ M,
    meet_with set_02 set_9 = Ret (M, Value)
    ∧ leq M set_02 = Ret true
    ∧ leq M set_9 = Ret true
    ∧ (leq set_135 set_02 = Ret true → leq set_135 set_9 = Ret true →
       leq set_135 M = Ret true)
    ∧ size M <= size set_02
    ∧ m_capacity M = m_capacity set_02.
Proof.
  assert (wf set_02) as HA by (apply wfb_sound; reflexivity).
  assert (wf set_9) as HB by (apply wfb_sound; reflexivity).
  assert (wf set_135) as HC by (apply wfb_sound; reflexivity).
  split; [exact HA|]. split; [exact HB|]. split; [exact HC|].
  exact (meet_with_greatest_lower_bound set_02 set_9 set_135 HA HB HC).
Defined.

(** ** When a combination changes nothing *)

(** X11. [A.join_with(B)] gives [A] back exactly as it was, all four
    fields, if and only if [B.leq(A)] holds and the capacity of [B] does not
    exceed that of [A]. *)
Theorem join_with_unchanged_iff (A B : SparseSetValue) :
  wf A → wf B →
  join_with A B = Ret (A, Value)
  ↔ leq B A = Ret true ∧ m_capacity B <= m_capacity A.
Proof.
  intros HA HB. rewrite leq_true by done. split.
  - intros Hj.
    destruct (join_with_spec A B HA HB) as (J & Hj' & _ & HcJ & HeJ & _).
    assert (J = A) as -> by congruence. split; [|lia].
    intros x Hx. apply HeJ. by right.
  - intros [Hsub Hcap]. unfold join_with, grow.
    destruct (N.ltb_spec (m_capacity A) (m_capacity B)); [lia|].
    rewrite (range_elems B HB). simpl.
    by rewrite add_all_present.
Qed.

Lemma join_with_unchanged_iff_witness :
  wf set_1357 ∧ wf set_135 ∧
  (join_with set_1357 set_135 = Ret (set_1357, Value)
   ↔ leq set_135 set_1357 = Ret true
     ∧ m_capacity set_135 <= m_capacity set_1357).
Proof.
  assert (wf set_1357) as HA by (apply wfb_sound; reflexivity).
  assert (wf set_135) as HB by (apply wfb_sound; reflexivity).
  split; [exact HA|]. split; [exact HB|].
  exact (join_with_unchanged_iff set_1357 set_135 HA HB).
Defined.

Lemma meet_loop_unchanged s other :
  wf s → wf other → (∀ x, x ∈ elems s → x ∈ elems other) →
  ∀ fuel i,
    i <= m_element_num s →
    (N.to_nat (m_element_num s - i) < fuel)%nat →
    meet_loop fuel s other i = Ret s.
Proof.
  intros Hwf Hwfo Hsub. induction fuel as [|fuel IH]; intros i Hi Hfuel; [lia|].
  simpl. rewrite (end_pos_count s Hwf). simpl.
  destruct (N.eqb_spec i (m_element_num s)) as [->|Hne]; [done|].
  destruct (wf_slot s Hwf i) as (x & Hx & _); [lia|].
  assert (x ∈ elems other) as Hin
    by (apply Hsub, elem_of_elems; exists i; split; [lia|done]).
  apply vget_Ret in Hx as ->. simpl.
  apply (contains_true other Hwfo) in Hin as ->. simpl.
  apply IH; lia.
Qed.

(** X12. [A.meet_with(B)] gives [A] back exactly as it was, all four
    fields, if and only if [A.leq(B)] holds. *)
Theorem meet_with_unchanged_iff (A B : SparseSetValue) :
  wf A → wf B →
  meet_with A B = Ret (A, Value) ↔ leq A B = Ret true.
Proof.
  intros HA HB. rewrite leq_true by done. split.
  - intros Hm.
    destruct (meet_with_spec A B HA HB) as (M & Hm' & _ & _ & HeM).
    assert (M = A) as -> by congruence.
    intros x Hx. by apply HeM.
  - intros Hsub. unfold meet_with.
    by rewrite (meet_loop_unchanged A B) by (done || lia).
Qed.

Lemma meet_with_unchanged_iff_witness :
  wf set_135 ∧ wf set_1357 ∧
  (meet_with set_135 set_1357 = Ret (set_135, Value)
   ↔ leq set_135 set_1357 = Ret true).
Proof.
  assert (wf set_135) as HA by (apply wfb_sound; reflexivity).
  assert (wf set_1357) as HB by (apply wfb_sound; reflexivity).
  split; [exact HA|]. split; [exact HB|].
  exact (meet_with_unchanged_iff set_135 set_1357 HA HB).
Defined.

(** ** The order of the elements after [join_with] *)

Lemma filter_absent_snoc (l k : list N) (a : N) :
  a ∉ l → filter (λ x, x ∉ k ++ [a]) l = filter (λ x, x ∉ k) l.
Proof.
  induction l as [|b l IH]; intros Ha; [done|].
  apply not_elem_of_cons in Ha as [Hab Hal].
  rewrite !filter_cons, IH by done.
  destruct (decide (b ∉ k ++ [a])) as [H1|H1], (decide (b ∉ k)) as [H2|H2];
    try done; exfalso.
  - apply H2. intros Hb. apply H1. apply elem_of_app. by left.
  - apply H1. intros [Hb|Hb%list_elem_of_singleton]%elem_of_app; done.
Qed.

Lemma add_all_order l : ∀ s,
  wf s → NoDup l → (∀ x, x ∈ l → x < m_capacity s) →
  ∃ s', foldM add s l = Ret s'
        ∧ elems s' = elems s ++ filter (λ x, x ∉ elems s) l.
Proof.
  induction l as [|a l IH]; intros s Hwf Hnd Hlt; simpl.
  - exists s. by rewrite app_nil_r.
  - apply NoDup_cons in Hnd as [Hal Hnd].
    destruct (add_spec s a Hwf) as (s1 & -> & Hwf1 & Hc1 & He1). simpl.
    destruct (IH s1 Hwf1 Hnd) as (s2 & -> & He2).
    { intros x Hx. rewrite Hc1. apply Hlt, elem_of_cons. by right. }
    exists s2. split; [done|]. rewrite He2, He1, filter_cons.
    assert (a < m_capacity s) by (apply Hlt, elem_of_cons; by left).
    case_bool_decide as Hc.
    + destruct Hc as [_ Hna]. rewrite decide_True by done.
      by rewrite filter_absent_snoc, <- app_assoc.
    + rewrite decide_False by tauto. done.
Qed.

(** X13. After [A.join_with(B)] the element sequence is the one [A] had,
    followed by the elements of [B] that [A] lacked, in the order [B] has
    them. *)
Theorem join_with_order (A B : SparseSetValue) :
  wf A → wf B →
  ∃ J lA lB,
    join_with A B = Ret (J, Value)
    ∧ elements A = Ret lA
    ∧ elements B = Ret lB
    ∧ elements J = Ret (lA ++ filter (λ x, x ∉ lA) lB).
Proof.
  intros HA HB.
  destruct (join_with_spec A B HA HB) as (J & Hj & HwJ & _).
  destruct (grow_spec A B HA HB) as (Hwg & Hcg & Heg).
  destruct (add_all_order (elems B) (grow A B) Hwg) as (J' & Hf & HeJ).
  { by apply elems_NoDup. }
  { intros x Hx%elems_lt_capacity; [|done]. lia. }
  exists J, (elems A), (elems B).
  rewrite !elements_elems by done. split_and!; try done.
  unfold join_with in Hj. rewrite (range_elems B HB) in Hj. simpl in Hj.
  rewrite Hf in Hj. simpl in Hj. injection Hj as <-.
  by rewrite HeJ, Heg.
Qed.

Lemma join_with_order_witness :
  wf set_135 ∧ wf set_357 ∧
  ∃ J lA lB,
    join_with set_135 set_357 = Ret (J, Value)
    ∧ elements set_135 = Ret lA
    ∧ elements set_357 = Ret lB
    ∧ elements J = Ret (lA ++ filter (λ x, x ∉ lA) lB).
Proof.
  assert (wf set_135) as HA by (apply wfb_sound; reflexivity).
  assert (wf set_357) as HB by (apply wfb_sound; reflexivity).
  split; [exact HA|]. split; [exact HB|].
  exact (join_with_order set_135 set_357 HA HB).
Defined.

(** ** Building a set from a list *)

(** X14. Adding the entries of a list, in order, to a freshly constructed
    set of capacity [max_size] gives a well-formed set that contains exactly
    the entries below [max_size]; entries at or beyond it are dropped
    without a trace.  When the list has no duplicates and all entries are
    below [max_size], [elements()] returns the list itself. *)
Theorem of_list_builds (max_size : N) (l : list N) :
  max_size < size_modulus →
  ∃ s,
    of_list max_size l = Ret s
    ∧ wf s
    ∧ m_capacity s = max_size
    ∧ (∀ e, contains s e = Ret true ↔ e ∈ l ∧ e < max_size)
    ∧ (NoDup l → (∀ x, x ∈ l → x < max_size) → elements s = Ret l).
Proof.
  intros Hm. pose proof (make_wf max_size Hm) as Hwf. unfold of_list.
  destruct (add_all_spec l (make max_size) Hwf) as (s & Hf & Hws & Hc & He & _).
  exists s. split_and!; try done.
  - intros e. rewrite contains_true, He by done. unfold elems. simpl.
    rewrite elem_of_nil. tauto.
  - intros Hnd Hlt.
    destruct (add_all_order l (make max_size) Hwf Hnd Hlt) as (s' & Hf' & He').
    assert (s' = s) as -> by congruence.
    rewrite elements_elems, He' by done. f_equal. unfold elems. simpl.
    clear. induction l as [|a l IH]; [done|].
    rewrite filter_cons_True by apply not_elem_of_nil. by rewrite IH.
Qed.

Lemma of_list_builds_witness :
  8 < size_modulus ∧
  ∃ s,
    of_list 8 [1; 9; 3; 1; 5] = Ret s
    ∧ wf s
    ∧ m_capacity s = 8
    ∧ (∀ e, contains s e = Ret true ↔ e ∈ [1; 9; 3; 1; 5] ∧ e < 8)
    ∧ (NoDup [1; 9; 3; 1; 5] → (∀ x, x ∈ [1; 9; 3; 1; 5] → x < 8) →
       elements s = Ret [1; 9; 3; 1; 5]).
Proof.
  assert (8 < size_modulus) as Hm by reflexivity.
  split; [exact Hm|]. exact (of_list_builds 8 [1; 9; 3; 1; 5] Hm).
Defined.

(** ** The capacity *)

(** X15. In every state, well-formed or not, an operation that returns
    leaves the capacity as it was, except [join_with], which makes it the
    larger of the two capacities: the capacity never shrinks, and only
    [join_with] makes it grow. *)
Theorem capacity_never_shrinks
    (s other s' : SparseSetValue) (e : N) (k : AbstractValueKind) :
  m_capacity (clear s) = m_capacity s
  ∧ (add s e = Ret s' → m_capacity s' = m_capacity s)
  ∧ (remove s e = Ret s' → m_capacity s' = m_capacity s)
  ∧ (join_with s other = Ret (s', k) →
     m_capacity s' = N.max (m_capacity s) (m_capacity other))
  ∧ (widen_with s other = Ret (s', k) →
     m_capacity s' = N.max (m_capacity s) (m_capacity other))
  ∧ (meet_with s other = Ret (s', k) → m_capacity s' = m_capacity s)
  ∧ (narrow_with s other = Ret (s', k) → m_capacity s' = m_capacity s).
Proof.
  assert (∀ t, join_with s other = Ret (t, k) →
               m_capacity t = N.max (m_capacity s) (m_capacity other)) as Hj.
  { intros t. unfold join_with.
    destruct (range other) as [es| |]; simpl; try done.
    destruct (foldM add (grow s other) es) as [s2| |] eqn:Hf; simpl; try done.
    intros [= <- _]. apply add_all_capacity in Hf. rewrite Hf. unfold grow.
    destruct (N.ltb_spec (m_capacity s) (m_capacity other)); simpl; lia. }
  assert (∀ t, meet_with s other = Ret (t, k) → m_capacity t = m_capacity s)
    as Hm.
  { intros t. unfold meet_with.
    destruct (meet_loop _ s other 0) as [s2| |] eqn:Hl; simpl; try done.
    intros [= <- _]. by apply meet_loop_capacity in Hl. }
  split_and!; try done.
  - apply add_capacity.
  - apply remove_capacity.
  - apply Hj.
  - apply Hj.
  - apply Hm.
  - apply Hm.
Qed.

(** ** [operator<<] *)






Example print_scenario_1 :
  print pretty EmptyString set_135 = Ret "[#3]{1, 3, 5}".
Proof. vm_compute. reflexivity. Qed.

Example print_empty : print pretty EmptyString (make 8) = Ret "[#0]{}".
Proof. vm_compute. reflexivity. Qed.

(** ** Monotonicity and progress *)

(** X17. [join_with] and [meet_with] are monotone for [leq] in both
    arguments: when [A.leq(A')] holds, joining or meeting [A] and [A'] with
    the same [B], on either side, gives results ordered the same way. *)
Theorem join_meet_monotone (A A' B : SparseSetValue) :
  wf A → wf A' → wf B → leq A A' = Ret true →
  ∃ J J' K K' M M' L L',
    join_with A B = Ret (J, Value) ∧ join_with A' B = Ret (J', Value)
    ∧ leq J J' = Ret true
    ∧ join_with B A = Ret (K, Value) ∧ join_with B A' = Ret (K', Value)
    ∧ leq K K' = Ret true
    ∧ meet_with A B = Ret (M, Value) ∧ meet_with A' B = Ret (M', Value)
    ∧ leq M M' = Ret true
    ∧ meet_with B A = Ret (L, Value) ∧ meet_with B A' = Ret (L', Value)
    ∧ leq L L' = Ret true.
Proof.
  intros HA HA' HB Hle. rewrite leq_true in Hle by done.
  destruct (join_with_spec A B HA HB) as (J & HJ & HwJ & _ & HeJ & _).
  destruct (join_with_spec A' B HA' HB) as (J' & HJ' & HwJ' & _ & HeJ' & _).
  destruct (join_with_spec B A HB HA) as (K & HK & HwK & _ & HeK & _).
  destruct (join_with_spec B A' HB HA') as (K' & HK' & HwK' & _ & HeK' & _).
  destruct (meet_with_spec A B HA HB) as (M & HM & HwM & _ & HeM).
  destruct (meet_with_spec A' B HA' HB) as (M' & HM' & HwM' & _ & HeM').
  destruct (meet_with_spec B A HB HA) as (L & HL & HwL & _ & HeL).
  destruct (meet_with_spec B A' HB HA') as (L' & HL' & HwL' & _ & HeL').
  exists J, J', K, K', M, M', L, L'.
  split_and!; try done; apply leq_true; try done; intros x.
  - rewrite HeJ, HeJ'. intros [?|?]; auto.
  - rewrite HeK, HeK'. intros [?|?]; auto.
  - rewrite HeM, HeM'. intros [? ?]; auto.
  - rewrite HeL, HeL'. intros [? ?]; auto.
Qed.

Lemma join_meet_monotone_witness :
  wf set_135 ∧ wf set_1357 ∧ wf set_9 ∧ leq set_135 set_1357 = Ret true ∧
  ∃ J J' K K' M M' L L',
    join_with set_135 set_9 = Ret (J, Value)
    ∧ join_with set_1357 set_9 = Ret (J', Value)
    ∧ leq J J' = Ret true
    ∧ join_with set_9 set_135 = Ret (K, Value)
    ∧ join_with set_9 set_1357 = Ret (K', Value)
    ∧ leq K K' = Ret true
    ∧ meet_with set_135 set_9 = Ret (M, Value)
    ∧ meet_with set_1357 set_9 = Ret (M', Value)
    ∧ leq M M' = Ret true
    ∧ meet_with set_9 set_135 = Ret (L, Value)
    ∧ meet_with set_9 set_1357 = Ret (L', Value)
    ∧ leq L L' = Ret true.
Proof.
  assert (wf set_135) as HA by (apply wfb_sound; reflexivity).
  assert (wf set_1357) as HA' by (apply wfb_sound; reflexivity).
  assert (wf set_9) as HB by (apply wfb_sound; reflexivity).
  assert (leq set_135 set_1357 = Ret true) as Hle by reflexivity.
  split; [exact HA|]. split; [exact HA'|]. split; [exact HB|].
  split; [exact Hle|].
  exact (join_meet_monotone set_135 set_1357 set_9 HA HA' HB Hle).
Defined.

(** X18. A [widen_with] step either finds [B] already below [A] and keeps
    the size, or makes the size strictly larger; the size stays within the
    capacity of the result, which is the larger of the two capacities.  So
    a chain of widening steps over values of bounded capacity stops
    growing. *)
Theorem widen_with_progress (A B : SparseSetValue) :
  wf A → wf B →
  ∃ W,
    widen_with A B = Ret (W, Value)
    ∧ (leq B A = Ret true → size W = size A)
    ∧ (leq B A = Ret false → size A < size W)
    ∧ size W <= N.max (m_capacity A) (m_capacity B).
Proof.
  intros HA HB. unfold widen_with.
  destruct (join_with_spec A B HA HB) as (W & HW & HwW & HcW & HeW & _).
  assert (m_element_num A <= m_element_num W) as Hle.
  { apply subset_count; try done. intros x Hx. apply HeW. by left. }
  exists W. unfold size. split_and!; try done.
  - intros Hsub. rewrite leq_true in Hsub by done.
    apply N.le_antisymm; [|done]. apply subset_count; try done.
    intros x [?|?]%HeW; auto.
  - intros Hn. destruct (decide (m_element_num A = m_element_num W)) as [Heq|];
      [exfalso | lia].
    assert (equals A W = Ret true) as Heqs.
    { unfold equals. rewrite Heq, N.eqb_refl. apply leq_true; try done.
      intros x Hx. apply HeW. by left. }
    rewrite equals_true in Heqs by done.
    assert (leq B A = Ret true); [|congruence].
    apply leq_true; try done. intros x Hx. apply Heqs, HeW. by right.
  - rewrite <- HcW. destruct HwW as [_ Hri]. apply (count_le_capacity W Hri).
Qed.

Lemma widen_with_progress_witness :
  wf set_135 ∧ wf set_357 ∧
  ∃ W,
    widen_with set_135 set_357 = Ret (W, Value)
    ∧ (leq set_357 set_135 = Ret true → size W = size set_135)
    ∧ (leq set_357 set_135 = Ret false → size set_135 < size W)
    ∧ size W <= N.max (m_capacity set_135) (m_capacity set_357).
Proof.
  assert (wf set_135) as HA by (apply wfb_sound; reflexivity).
  assert (wf set_357) as HB by (apply wfb_sound; reflexivity).
  split; [exact HA|]. split; [exact HB|].
  exact (widen_with_progress set_135 set_357 HA HB).
Defined.
